(** * X-O-AI: the tic-tac-toe core of [src/Game.js]

    A shallow embedding of the board, of [checkWinner], of the click
    handler, of the [minimax] search with its in-place board update, of
    [computerMove] and of the effect that drives the game loop, followed by
    the properties of the specification that concern them. *)

From stdpp Require Import base list sorting.
From Stdlib Require Import ZArith Lia.

Local Open Scope Z_scope.

(** ** Data *)

(** The two strings the code writes into a cell: ["X"] (the player) and
    ["O"] (the computer). *)
Inductive mark := MarkX | MarkO.

(** A cell of the board holds [null] ([None]) or a mark. *)
Abbreviation cell := (option mark).

(** The board is a JS array of cells; reading past its end gives
    [undefined], which is the [None] of the list lookup [b !! i]. *)
Abbreviation Board := (list cell).

(** What [checkWinner] returns when it does not return [null]. *)
Inductive result := Won (m : mark) | Tie.

(** JS numbers as the search uses them: [-Infinity], an integer,
    [Infinity]. *)
Inductive score := NegInf | Num (z : Z) | PosInf.

(** Error kinds named by the specification. *)
Inductive error := InvalidMove | GameAlreadyOver | PreconditionViolated.

(** How a call ends: it returns a value, it throws, or the model ran out
    of fuel before the call ended. *)
Inductive completion (A : Type) :=
| Normal (a : A)
| Throw (e : error)
| OutOfFuel.
Arguments Normal {A} a.
Arguments Throw {A} e.
Arguments OutOfFuel {A}.

(** The sequencing of two calls, written [x ← c; k] below. *)
Instance completion_bind : MBind completion := λ A B k c,
  match c with
  | Normal a => k a
  | Throw e => Throw e
  | OutOfFuel => OutOfFuel
  end.

Instance mark_eq_dec : EqDecision mark.
Proof. solve_decision. Defined.
Instance result_eq_dec : EqDecision result.
Proof. solve_decision. Defined.
Instance score_eq_dec : EqDecision score.
Proof. solve_decision. Defined.

(** ** Values read from the board *)

(** JS truthiness of [currentBoard[a]]: a mark is truthy, [null] and
    [undefined] are not. *)
Definition truthy (v : option cell) : bool :=
  match v with
  | Some (Some _) => true
  | _ => false
  end.

(** [Boolean] applied to an element of the array. *)
Definition Boolean (c : cell) : bool :=
  match c with
  | Some _ => true
  | None => false
  end.

Definition mark_eqb (m1 m2 : mark) : bool :=
  match m1, m2 with
  | MarkX, MarkX | MarkO, MarkO => true
  | _, _ => false
  end.

(** [===] on two values read from the board. *)
Definition strictEq (v w : option cell) : bool :=
  match v, w with
  | None, None => true
  | Some None, Some None => true
  | Some (Some m1), Some (Some m2) => mark_eqb m1 m2
  | _, _ => false
  end.

(** [newBoard[i] === null]. *)
Definition isNull (v : option cell) : bool :=
  match v with
  | Some None => true
  | _ => false
  end.

(** ** checkWinner *)

Definition winningCombinations : list (nat * nat * nat) :=
  [ (0, 1, 2); (3, 4, 5); (6, 7, 8);
    (0, 3, 6); (1, 4, 7); (2, 5, 8);
    (0, 4, 8); (2, 4, 6) ]%nat.

(** The test of one combination, giving [currentBoard[a]] when it holds. *)
Definition checkCombination (currentBoard : Board) (combination : nat * nat * nat)
  : option mark :=
  let '(a, b, c) := combination in
  if truthy (currentBoard !! a)
     && strictEq (currentBoard !! a) (currentBoard !! b)
     && strictEq (currentBoard !! a) (currentBoard !! c)
  then mjoin (currentBoard !! a)
  else None.

(** The [for ... of] loop: the first combination whose test holds. *)
Fixpoint firstWinner (currentBoard : Board) (combinations : list (nat * nat * nat))
  : option mark :=
  match combinations with
  | [] => None
  | combination :: rest =>
      match checkCombination currentBoard combination with
      | Some m => Some m
      | None => firstWinner currentBoard rest
      end
  end.

Definition checkWinner (currentBoard : Board) : option result :=
  match firstWinner currentBoard winningCombinations with
  | Some m => Some (Won m)
  | None => if forallb Boolean currentBoard then Some Tie else None
  end.

(** ** minimax *)

Definition score_max (a b : score) : score :=
  match a, b with
  | PosInf, _ | _, PosInf => PosInf
  | NegInf, s | s, NegInf => s
  | Num x, Num y => Num (Z.max x y)
  end.

Definition score_min (a b : score) : score :=
  match a, b with
  | NegInf, _ | _, NegInf => NegInf
  | PosInf, s | s, PosInf => s
  | Num x, Num y => Num (Z.min x y)
  end.

(** [a > b] on scores. *)
Definition score_gt (a b : score) : bool :=
  match a, b with
  | NegInf, _ => false
  | _, PosInf => false
  | _, NegInf => true
  | PosInf, _ => true
  | Num x, Num y => y <? x
  end.

(** [const player = isMaximizing ? "O" : "X"]. *)
Definition player (isMaximizing : bool) : mark :=
  if isMaximizing then MarkO else MarkX.

(** The body of the [for] loop of [minimax] over the indices still to
    visit, threading the array (written at [i] before the recursive call
    and reset to [null] after it) and [bestScore]. [rec] is the recursive
    call. The array keeps its length, so the indices are those below the
    length at entry. *)
Fixpoint minimax_loop (rec : Board → bool → completion (score * Board))
    (isMaximizing : bool) (indices : list nat) (newBoard : Board) (bestScore : score)
  : completion (score * Board) :=
  match indices with
  | [] => Normal (bestScore, newBoard)
  | i :: rest =>
      if isNull (newBoard !! i) then
        '(score, newBoard) ← rec (<[i := Some (player isMaximizing)]> newBoard)
                                 (negb isMaximizing) ;
        let newBoard := <[i := None]> newBoard in
        let bestScore :=
          if isMaximizing then score_max score bestScore
          else score_min score bestScore in
        minimax_loop rec isMaximizing rest newBoard bestScore
      else minimax_loop rec isMaximizing rest newBoard bestScore
  end.

(** [minimax] with a bound on the depth of the recursion. It returns its
    score together with the array as the call leaves it. *)
Fixpoint minimax_fuel (fuel : nat) (newBoard : Board) (isMaximizing : bool)
  : completion (score * Board) :=
  match fuel with
  | 0%nat => OutOfFuel
  | S fuel =>
      match checkWinner newBoard with
      | Some (Won MarkX) => Normal (Num (-1), newBoard)
      | Some (Won MarkO) => Normal (Num 1, newBoard)
      | Some Tie => Normal (Num 0, newBoard)
      | None =>
          let bestScore := if isMaximizing then NegInf else PosInf in
          minimax_loop (minimax_fuel fuel) isMaximizing
            (seq 0 (length newBoard)) newBoard bestScore
      end
  end.

(** Each level of the recursion fills one cell, so one more level than the
    array has cells always suffices. *)
Definition minimax (newBoard : Board) (isMaximizing : bool)
  : completion (score * Board) :=
  minimax_fuel (S (length newBoard)) newBoard isMaximizing.

(** ** computerMove *)

(** [board.map((value, index) => value === null ? index : null)
         .filter(value => value !== null)]. *)
Definition emptySquares (b : Board) : list nat :=
  omap id (imap (λ index value, if isNull (Some value) then Some index else None) b).

(** The [for ... of] loop of [computerMove]: every candidate is scored on
    a fresh copy of the board; [move] is [None] while it is [undefined]. *)
Fixpoint computerMove_loop (b : Board) (squares : list nat)
    (bestScore : score) (move : option nat) : completion (score * option nat) :=
  match squares with
  | [] => Normal (bestScore, move)
  | i :: rest =>
      let newBoard := <[i := Some MarkO]> b in
      '(score, _) ← minimax newBoard false;
      if score_gt score bestScore
      then computerMove_loop b rest score (Some i)
      else computerMove_loop b rest bestScore move
  end.

(** The move [computerMove] settles on, with its score. *)
Definition bestMove (b : Board) : completion (score * option nat) :=
  computerMove_loop b (emptySquares b) NegInf None.

(** ** The component state and its handlers *)

Record state := mkState {
  board : Board;
  isPlayerTurn : bool;
  winner : option result;
  playerScore : Z;
  aiScore : Z;
  draws : Z;
  countdown : Z;
  gameStarted : bool;
  roundReady : bool
}.

Definition setBoard (b : Board) (s : state) : state :=
  mkState b (isPlayerTurn s) (winner s) (playerScore s) (aiScore s) (draws s)
    (countdown s) (gameStarted s) (roundReady s).

Definition setIsPlayerTurn (t : bool) (s : state) : state :=
  mkState (board s) t (winner s) (playerScore s) (aiScore s) (draws s)
    (countdown s) (gameStarted s) (roundReady s).

Definition setWinner (w : option result) (s : state) : state :=
  mkState (board s) (isPlayerTurn s) w (playerScore s) (aiScore s) (draws s)
    (countdown s) (gameStarted s) (roundReady s).

Definition setCountdown (c : Z) (s : state) : state :=
  mkState (board s) (isPlayerTurn s) (winner s) (playerScore s) (aiScore s)
    (draws s) c (gameStarted s) (roundReady s).

Definition setRoundReady (r : bool) (s : state) : state :=
  mkState (board s) (isPlayerTurn s) (winner s) (playerScore s) (aiScore s)
    (draws s) (countdown s) (gameStarted s) r.

(** The state of the component when it is mounted. *)
Definition initialState : state :=
  mkState (replicate 9 None) true None 0 0 0 3 false false.

Definition startNewGame (s : state) : state :=
  mkState (replicate 9 None) true None (playerScore s) (aiScore s) (draws s)
    3 true false.

(** [updateWinner]. The three tallies are JS numbers that start at 0 and
    only ever receive [prev + 1]; that addition is the integer one as long
    as the tally is below 2^53, the range in which the statements about
    the tallies are made. *)
Definition updateWinner (currentWinner : result) (s : state) : state :=
  let s :=
    match currentWinner with
    | Won MarkX =>
        mkState (board s) (isPlayerTurn s) (winner s) (playerScore s + 1)
          (aiScore s) (draws s) (countdown s) (gameStarted s) (roundReady s)
    | Won MarkO =>
        mkState (board s) (isPlayerTurn s) (winner s) (playerScore s)
          (aiScore s + 1) (draws s) (countdown s) (gameStarted s) (roundReady s)
    | Tie =>
        mkState (board s) (isPlayerTurn s) (winner s) (playerScore s)
          (aiScore s) (draws s + 1) (countdown s) (gameStarted s) (roundReady s)
    end in
  setRoundReady true (setWinner (Some currentWinner) s).

(** The guard of [handleClick]. *)
Definition clickRefused (index : nat) (s : state) : bool :=
  truthy (board s !! index)
  || bool_decide (is_Some (winner s))
  || (0 <? countdown s)
  || negb (gameStarted s)
  || negb (roundReady s)
  || negb (isPlayerTurn s).

(** [handleClick]. The grid calls it with the index of a rendered cell,
    [index < board.length], where the write [newBoard[index] = "X"] is the
    list update. (Past the end JS would grow the array; no theorem below
    relies on a write there.) The function has no [throw]: it completes
    normally on both paths. *)
Definition handleClick (index : nat) (s : state) : completion state :=
  if clickRefused index s then Normal s
  else
    let newBoard := <[index := Some MarkX]> (board s) in
    Normal (setIsPlayerTurn false (setBoard newBoard s)).

(** [computerMove]: the board is replaced only when a move was found; the
    turn goes back to the player in both cases. *)
Definition computerMove (s : state) : completion state :=
  '(_, move) ← bestMove (board s);
  let s' :=
    match move with
    | Some i => setBoard (<[i := Some MarkO]> (board s)) s
    | None => s
    end in
  Normal (setIsPlayerTurn true s').

(** The condition under which the first effect starts the timer that
    calls [computerMove]. *)
Definition aiTurn (s : state) : bool :=
  negb (isPlayerTurn s)
  && negb (bool_decide (is_Some (winner s)))
  && (countdown s =? 0)
  && roundReady s.

(** One transition of the component: a click on a rendered cell, the
    timer of the first effect firing, the winner check of the first
    effect, the two branches of the countdown effect, and the start
    button. *)
Inductive step : state → state → Prop :=
| step_click index s s' :
    (index < length (board s))%nat →
    handleClick index s = Normal s' →
    step s s'
| step_computer s s' :
    aiTurn s = true →
    computerMove s = Normal s' →
    step s s'
| step_winner s currentWinner :
    aiTurn s = false →
    checkWinner (board s) = Some currentWinner →
    winner s = None →
    step s (updateWinner currentWinner s)
| step_countdown s :
    0 < countdown s →
    gameStarted s = true →
    step s (setCountdown (countdown s - 1) s)
| step_ready s :
    countdown s = 0 →
    gameStarted s = true →
    roundReady s = false →
    step s (setRoundReady true s)
| step_start s :
    step s (startNewGame s).

(** The states the component can be in. *)
Inductive reachable : state → Prop :=
| reachable_init : reachable initialState
| reachable_step s s' : reachable s → step s s' → reachable s'.

(** The number of cells holding mark [m]. *)
Definition countMark (m : mark) (b : Board) : nat :=
  length (filter (λ c, c = Some m) b).

(** ** The game the search is about *)

Definition other (m : mark) : mark :=
  match m with
  | MarkX => MarkO
  | MarkO => MarkX
  end.

(** [Forces p good turn b]: with [turn] to move on [b], the side [p] can
    play so that, whatever the other side plays, the game ends with a
    result satisfying [good]. The game is over as soon as [checkWinner]
    reports a result; a move fills one [null] cell. *)
Inductive Forces (p : mark) (good : result → Prop) : mark → Board → Prop :=
| Forces_over turn b r :
    checkWinner b = Some r →
    good r →
    Forces p good turn b
| Forces_own b i :
    checkWinner b = None →
    b !! i = Some None →
    Forces p good (other p) (<[i := Some p]> b) →
    Forces p good p b
| Forces_other b :
    checkWinner b = None →
    (∀ i, b !! i = Some None → Forces p good p (<[i := Some (other p)]> b)) →
    Forces p good (other p) b.

(** The results the computer accepts: it wins, resp. it does not lose. *)
Definition computerWins (r : result) : Prop := r = Won MarkO.
Definition computerSafe (r : result) : Prop := r ≠ Won MarkX.
Definition playerWins (r : result) : Prop := r = Won MarkX.

(** ** The flag-free search of the specification *)

(** Modelled from the spec: the turn derived from the board, "which mark
    has fewer placed cells moves next", the player's mark moving first. *)
Definition derivedTurn (b : Board) : mark :=
  if (countMark MarkO b <? countMark MarkX b)%nat then MarkO else MarkX.

Fixpoint mapC {A B} (f : A → completion B) (l : list A) : completion (list B) :=
  match l with
  | [] => Normal []
  | a :: l => b ← f a; bs ← mapC f l; Normal (b :: bs)
  end.

(** Modelled from the spec: [score(board, maximizingMark)] of section 4.2,
    which places on every empty index the mark whose turn it is by
    [derivedTurn] and takes the maximum of the children when that mark is
    [maximizingMark], the minimum otherwise. It is the definition the
    flag-passing [minimax] of the source is compared with. *)
Fixpoint scoreDerived_fuel (fuel : nat) (b : Board) (maximizingMark : mark)
  : completion score :=
  match fuel with
  | 0%nat => OutOfFuel
  | S fuel =>
      match checkWinner b with
      | Some (Won m) => Normal (if mark_eqb m maximizingMark then Num 1 else Num (-1))
      | Some Tie => Normal (Num 0)
      | None =>
          let turn := derivedTurn b in
          children ← mapC (λ i, scoreDerived_fuel fuel (<[i := Some turn]> b)
                                  maximizingMark) (emptySquares b);
          Normal (if mark_eqb turn maximizingMark
                  then foldr score_max NegInf children
                  else foldr score_min PosInf children)
      end
  end.

Definition scoreDerived (b : Board) (maximizingMark : mark) : completion score :=
  scoreDerived_fuel (S (length b)) b maximizingMark.

(** * Properties *)

(** ** Reading and writing cells *)

Lemma truthy_Some (b : Board) i : truthy (b !! i) = true ↔ ∃ m, b !! i = Some (Some m).
Proof.
  destruct (b !! i) as [[m|]|]; simpl; split; try done; eauto.
  all: intros [m Hm]; done.
Qed.

Lemma isNull_Some (v : option cell) : isNull v = true ↔ v = Some None.
Proof. destruct v as [[m|]|]; simpl; split; done. Qed.

Lemma strictEq_eq (v w : option cell) : strictEq v w = true ↔ v = w.
Proof.
  destruct v as [[[]|]|], w as [[[]|]|]; simpl; split; done.
Qed.

(** Writing a mark into a [null] cell and resetting the cell restores the
    array. *)
Lemma insert_reset (b : Board) i (c : cell) :
  b !! i = Some None → <[i := None]> (<[i := c]> b) = b.
Proof.
  intros Hi. rewrite list_insert_insert_eq. by apply list_insert_id.
Qed.

(** ** The empty squares *)

(** The number of [null] cells, the measure on which the search
    terminates. *)
Definition countNull (b : Board) : nat :=
  length (filter (λ c, c = None) b).

Lemma countNull_le_length (b : Board) : (countNull b ≤ length b)%nat.
Proof. apply length_filter. Qed.

Lemma countNull_insert (b : Board) i m :
  b !! i = Some None →
  S (countNull (<[i := Some m]> b)) = countNull b.
Proof.
  unfold countNull. revert i. induction b as [|c b IH]; intros [|i] Hi; try done.
  - simpl in Hi. injection Hi as ->. change (<[0%nat := Some m]> (None :: b)) with (Some m :: b).
    rewrite filter_cons_False by done. by rewrite filter_cons_True.
  - simpl in Hi. specialize (IH i Hi).
    change (<[S i := Some m]> (c :: b)) with (c :: <[i := Some m]> b).
    destruct (decide (c = None)) as [Hc|Hc].
    + rewrite !filter_cons_True by done. simpl. by rewrite IH.
    + by rewrite !filter_cons_False.
Qed.

Lemma filter_ext_elem {A} (P Q : A → Prop) `{!∀ x, Decision (P x)}
    `{!∀ x, Decision (Q x)} (l : list A) :
  (∀ x, x ∈ l → P x ↔ Q x) → filter P l = filter Q l.
Proof.
  induction l as [|x l IH]; intros HPQ; [done|].
  rewrite !filter_cons. rewrite IH by (intros y Hy; apply HPQ; by right).
  destruct (decide (P x)) as [HP|HP], (decide (Q x)) as [HQ|HQ]; try done.
  - destruct HQ. apply HPQ; [by left|done].
  - destruct HP. apply HPQ; [by left|done].
Qed.

(** [emptySquares] lists, in ascending order, the indices below the length
    whose cell is [null]: the same indices the loop of [minimax] acts on. *)
Lemma emptySquares_filter (b : Board) :
  emptySquares b = filter (λ i, isNull (b !! i)) (seq 0 (length b)).
Proof.
  unfold emptySquares. induction b as [|c b IH] using rev_ind; [done|].
  rewrite imap_app, omap_app, length_app, Nat.add_comm.
  change (1 + length b)%nat with (S (length b)).
  rewrite seq_S, filter_app, IH. f_equal.
  - apply filter_ext_elem. intros i Hi.
    apply elem_of_seq in Hi. by rewrite lookup_app_l by lia.
  - assert ((b ++ [c]) !! length b = Some c) as Hc.
    { rewrite lookup_app_r by lia. by rewrite Nat.sub_diag. }
    simpl. rewrite Nat.add_0_r. destruct c as [m|].
    + rewrite filter_cons_False; [done|]. rewrite Hc. simpl. tauto.
    + rewrite filter_cons_True; [done|]. by rewrite Hc.
Qed.

Lemma elem_of_emptySquares (b : Board) i :
  i ∈ emptySquares b ↔ b !! i = Some None.
Proof.
  rewrite emptySquares_filter, list_elem_of_filter, elem_of_seq.
  rewrite Is_true_true, isNull_Some. split; [tauto|].
  intros Hi. split; [done|]. apply lookup_lt_Some in Hi. lia.
Qed.

Lemma forallb_Boolean_false (b : Board) :
  forallb Boolean b = false → ∃ i, b !! i = Some None.
Proof.
  induction b as [|c b IH]; [done|]. simpl.
  destruct c as [m|]; simpl.
  - intros [i Hi]%IH. by exists (S i).
  - intros _. by exists 0%nat.
Qed.

(** A board on which [checkWinner] reports nothing has a [null] cell. *)
Lemma checkWinner_None_null (b : Board) :
  checkWinner b = None → ∃ i, b !! i = Some None.
Proof.
  unfold checkWinner. destruct (firstWinner b winningCombinations); [done|].
  destruct (forallb Boolean b) eqn:Hall; [done|]. intros _.
  by apply forallb_Boolean_false.
Qed.

(** ** The order on scores *)

Definition score_le (a b : score) : Prop :=
  match a, b with
  | NegInf, _ | _, PosInf => True
  | Num x, Num y => x ≤ y
  | _, _ => False
  end.

Lemma score_le_refl a : score_le a a.
Proof. destruct a; simpl; lia. Qed.

Lemma score_gt_spec a b : score_gt a b = true ↔ ¬ score_le a b.
Proof.
  destruct a, b; simpl; try tauto; try (split; [done|tauto]).
  rewrite Z.ltb_lt. lia.
Qed.

Lemma score_le_max t s acc :
  score_le (Num t) (score_max s acc) ↔ score_le (Num t) s ∨ score_le (Num t) acc.
Proof. destruct s, acc; simpl; try tauto. lia. Qed.

Lemma score_le_min t s acc :
  score_le (Num t) (score_min s acc) ↔ score_le (Num t) s ∧ score_le (Num t) acc.
Proof. destruct s, acc; simpl; try tauto. lia. Qed.

(** ** The search as a function of the board *)

Definition resultScore (r : result) : Z :=
  match r with
  | Won MarkX => -1
  | Won MarkO => 1
  | Tie => 0
  end.

(** [bestScore = isMaximizing ? Math.max(score, bestScore)
                              : Math.min(score, bestScore)]. *)
Definition combine (isMaximizing : bool) (sc bestScore : score) : score :=
  if isMaximizing then score_max sc bestScore else score_min sc bestScore.

Definition initialScore (isMaximizing : bool) : score :=
  if isMaximizing then NegInf else PosInf.

(** The score [minimax] computes, read off the board alone: the view of
    the search in which the array is a value. *)
Fixpoint value (fuel : nat) (b : Board) (isMaximizing : bool) : score :=
  match fuel with
  | 0%nat => Num 0
  | S fuel =>
      match checkWinner b with
      | Some r => Num (resultScore r)
      | None =>
          foldl (λ bestScore i,
                   combine isMaximizing
                     (value fuel (<[i := Some (player isMaximizing)]> b)
                        (negb isMaximizing)) bestScore)
            (initialScore isMaximizing) (emptySquares b)
      end
  end.

(** The loop of [minimax], when every recursive call returns the score
    [v i] and leaves the array as it received it: the loop folds the
    scores of the [null] cells and returns the array unchanged. *)
Lemma minimax_loop_value rec isMaximizing (v : nat → score) indices :
  ∀ (b : Board) bestScore,
  (∀ i, i ∈ indices → b !! i = Some None →
        rec (<[i := Some (player isMaximizing)]> b) (negb isMaximizing)
        = Normal (v i, <[i := Some (player isMaximizing)]> b)) →
  minimax_loop rec isMaximizing indices b bestScore
  = Normal (foldl (λ bestScore i, combine isMaximizing (v i) bestScore) bestScore
              (filter (λ i, isNull (b !! i)) indices), b).
Proof.
  induction indices as [|i indices IH]; intros b bestScore Hrec; [done|].
  simpl. destruct (isNull (b !! i)) eqn:Hi.
  - rewrite filter_cons_True by (by rewrite Hi).
    apply isNull_Some in Hi.
    rewrite (Hrec i); [|by left|done]. simpl.
    rewrite insert_reset by done.
    rewrite IH by (intros j Hj; apply Hrec; by right). done.
  - rewrite filter_cons_False by (rewrite Hi; simpl; tauto).
    apply IH. intros j Hj; apply Hrec; by right.
Qed.

(** With enough fuel, [minimax] returns, its score is [value], and the
    array it was given holds its original contents. *)
Lemma minimax_fuel_value fuel :
  ∀ (b : Board) isMaximizing,
  (countNull b < fuel)%nat →
  minimax_fuel fuel b isMaximizing = Normal (value fuel b isMaximizing, b).
Proof.
  induction fuel as [|fuel IH]; intros b isMaximizing Hfuel; [lia|].
  simpl. destruct (checkWinner b) as [[[]|]|] eqn:Hw; try done.
  rewrite emptySquares_filter.
  apply (minimax_loop_value _ _
           (λ i, value fuel (<[i := Some (player isMaximizing)]> b)
                   (negb isMaximizing))).
  intros i _ Hi. apply IH.
  pose proof (countNull_insert b i (player isMaximizing) Hi). lia.
Qed.

Lemma minimax_value (b : Board) isMaximizing :
  minimax b isMaximizing = Normal (value (S (length b)) b isMaximizing, b).
Proof.
  apply minimax_fuel_value. pose proof (countNull_le_length b). lia.
Qed.

Lemma fold_max_le t (v : nat → score) (l : list nat) acc :
  score_le (Num t) (foldl (λ bestScore i, combine true (v i) bestScore) acc l)
  ↔ score_le (Num t) acc ∨ ∃ i, i ∈ l ∧ score_le (Num t) (v i).
Proof.
  revert acc. induction l as [|j l IH]; intros acc; cbn [foldl].
  - split; [tauto|]. intros [H|(i & Hi & _)]; [done|]. by apply elem_of_nil in Hi.
  - rewrite IH. unfold combine at 1. rewrite score_le_max. split.
    + intros [[H|H]|(i & Hi & H)]; [right; exists j|tauto|right; exists i].
      * split; [by left|done].
      * split; [by right|done].
    + intros [H|(i & Hi & H)]; [tauto|].
      apply elem_of_cons in Hi as [->|Hi]; [tauto|]. right. by exists i.
Qed.

Lemma fold_min_le t (v : nat → score) (l : list nat) acc :
  score_le (Num t) (foldl (λ bestScore i, combine false (v i) bestScore) acc l)
  ↔ score_le (Num t) acc ∧ ∀ i, i ∈ l → score_le (Num t) (v i).
Proof.
  revert acc. induction l as [|j l IH]; intros acc; cbn [foldl].
  - split; [|tauto]. intros H. split; [done|]. intros i Hi. by apply elem_of_nil in Hi.
  - rewrite IH. unfold combine at 1. rewrite score_le_min. split.
    + intros [[Hj Hacc] Hl]. split; [done|]. intros i Hi.
      apply elem_of_cons in Hi as [->|Hi]; [done|by apply Hl].
    + intros [Hacc Hl]. repeat split; [apply Hl; by left|done|].
      intros i Hi. apply Hl. by right.
Qed.

(** The results whose score is at least [t]. *)
Definition atLeast (t : Z) (r : result) : Prop := t ≤ resultScore r.

(** What the score means: it is at least [t] exactly when the computer
    can force a result worth at least [t], the side to move being the one
    the flag names. *)
Lemma value_forces fuel :
  ∀ (b : Board) isMaximizing t,
  (countNull b < fuel)%nat →
  score_le (Num t) (value fuel b isMaximizing)
  ↔ Forces MarkO (atLeast t) (player isMaximizing) b.
Proof.
  induction fuel as [|fuel IH]; intros b isMaximizing t Hfuel; [lia|].
  cbn [value]. destruct (checkWinner b) as [r|] eqn:Hw.
  - split.
    + intros Hle. by apply Forces_over with r.
    + intros HF. inversion HF; simplify_eq; done.
  - assert (∀ i m, b !! i = Some None →
                   (countNull (<[i := Some m]> b) < fuel)%nat) as Hlt.
    { intros i m Hi. pose proof (countNull_insert b i m Hi). lia. }
    destruct isMaximizing; cbn [player negb initialScore].
    + etrans; [apply (fold_max_le t (λ i, value fuel (<[i := Some MarkO]> b) false))|].
      split.
      * intros [[]|(i & Hi & Hle)]. apply elem_of_emptySquares in Hi.
        apply Forces_own with i; [done..|].
        apply (IH _ false); [by apply Hlt|done].
      * intros HF. inversion HF as [? ? r Hr|? i _ Hi HF'|]; simplify_eq.
        right. exists i. split; [by apply elem_of_emptySquares|].
        apply (IH _ false) in HF'; [done|by apply Hlt].
    + etrans; [apply (fold_min_le t (λ i, value fuel (<[i := Some MarkX]> b) true))|].
      split.
      * intros [_ Hall]. apply (Forces_other MarkO); [done|].
        intros i Hi. apply (IH _ true); [by apply Hlt|].
        apply Hall. by apply elem_of_emptySquares.
      * intros HF. inversion HF as [? ? r Hr| |? _ Hall]; simplify_eq.
        split; [done|]. intros i Hi%elem_of_emptySquares.
        apply (IH _ true t); [by apply Hlt|by apply Hall].
Qed.

Definition inRange (s : score) : Prop := ∃ z, s = Num z ∧ -1 ≤ z ≤ 1.

Lemma fold_combine_range isMaximizing (v : nat → score) (l : list nat) :
  (∀ i, i ∈ l → inRange (v i)) →
  ∀ acc, inRange acc →
  inRange (foldl (λ bestScore i, combine isMaximizing (v i) bestScore) acc l).
Proof.
  induction l as [|j l IH]; intros Hv acc Hacc; [done|].
  cbn [foldl]. apply IH; [intros i Hi; apply Hv; by right|].
  destruct (Hv j) as (zj & -> & Hj); [by left|].
  destruct Hacc as (za & -> & Ha).
  destruct isMaximizing; simpl; eexists; (split; [done|lia]).
Qed.

(** The score is one of [-1], [0], [1]. *)
Lemma value_range fuel :
  ∀ (b : Board) isMaximizing,
  (countNull b < fuel)%nat →
  inRange (value fuel b isMaximizing).
Proof.
  induction fuel as [|fuel IH]; intros b isMaximizing Hfuel; [lia|].
  cbn [value]. destruct (checkWinner b) as [r|] eqn:Hw.
  - exists (resultScore r). split; [done|]. destruct r as [[]|]; simpl; lia.
  - destruct (checkWinner_None_null b Hw) as [k Hk%elem_of_emptySquares].
    assert (∀ i, i ∈ emptySquares b →
                 inRange (value fuel (<[i := Some (player isMaximizing)]> b)
                            (negb isMaximizing))) as Hall.
    { intros i Hi%elem_of_emptySquares. apply IH.
      pose proof (countNull_insert b i (player isMaximizing) Hi). lia. }
    destruct (emptySquares b) as [|j l]; [by apply elem_of_nil in Hk|].
    cbn [foldl].
    apply (fold_combine_range isMaximizing
             (λ i, value fuel (<[i := Some (player isMaximizing)]> b)
                     (negb isMaximizing))).
    + intros i Hi. apply Hall. by right.
    + destruct (Hall j) as (z & -> & Hz); [by left|].
      exists z. by destruct isMaximizing.
Qed.

(** ** The choice of [computerMove] *)

Definition score_lt (a b : score) : Prop := ¬ score_le b a.

Lemma score_lt_le a b : score_lt a b → score_le a b.
Proof. unfold score_lt. destruct a, b; simpl; try tauto. lia. Qed.

Lemma score_le_lt_trans a b c : score_le a b → score_lt b c → score_lt a c.
Proof. unfold score_lt. destruct a, b, c; simpl; try tauto. lia. Qed.

Lemma score_lt_trans a b c : score_lt a b → score_lt b c → score_lt a c.
Proof. intros Hab. apply score_le_lt_trans. by apply score_lt_le. Qed.

Lemma score_le_trans a b c : score_le a b → score_le b c → score_le a c.
Proof. destruct a, b, c; simpl; try tauto. lia. Qed.

Lemma score_le_total a b : score_le a b ∨ score_lt b a.
Proof. unfold score_lt. destruct a, b; simpl; try tauto. lia. Qed.

(** The score [computerMove] gives to the empty square [i]. *)
Definition moveScore (b : Board) (i : nat) : score :=
  value (S (length b)) (<[i := Some MarkO]> b) false.

Lemma minimax_moveScore (b : Board) i :
  minimax (<[i := Some MarkO]> b) false
  = Normal (moveScore b i, <[i := Some MarkO]> b).
Proof. rewrite minimax_value. unfold moveScore. by rewrite length_insert. Qed.

(** The selection loop over given scores. *)
Fixpoint pick (v : nat → score) (squares : list nat) (bestScore : score)
    (move : option nat) : score * option nat :=
  match squares with
  | [] => (bestScore, move)
  | i :: rest =>
      if score_gt (v i) bestScore then pick v rest (v i) (Some i)
      else pick v rest bestScore move
  end.

Lemma computerMove_loop_pick (b : Board) squares :
  ∀ bestScore move,
  computerMove_loop b squares bestScore move
  = Normal (pick (moveScore b) squares bestScore move).
Proof.
  induction squares as [|i rest IH]; intros bestScore move; [done|].
  cbn [computerMove_loop pick]. rewrite minimax_moveScore. simpl.
  destruct (score_gt (moveScore b i) bestScore); apply IH.
Qed.

(** Either nothing beats the score at entry, or the loop settles on the
    first square of the strictly highest score. *)
Lemma pick_spec (v : nat → score) squares :
  ∀ bestScore move,
  (pick v squares bestScore move = (bestScore, move)
   ∧ ∀ j, j ∈ squares → score_le (v j) bestScore)
  ∨ (∃ m l1 l2,
       squares = l1 ++ m :: l2
       ∧ pick v squares bestScore move = (v m, Some m)
       ∧ score_lt bestScore (v m)
       ∧ (∀ j, j ∈ l1 → score_lt (v j) (v m))
       ∧ (∀ j, j ∈ l2 → score_le (v j) (v m))).
Proof.
  induction squares as [|i rest IH]; intros bestScore move.
  { left. split; [done|]. intros j Hj. by apply elem_of_nil in Hj. }
  cbn [pick]. destruct (score_gt (v i) bestScore) eqn:Hgt.
  - apply score_gt_spec in Hgt. right.
    destruct (IH (v i) (Some i)) as [[Heq Hle]|(m & l1 & l2 & -> & Heq & Hlt & H1 & H2)].
    + exists i, [], rest. repeat split; try done.
      intros j Hj. by apply elem_of_nil in Hj.
    + exists m, (i :: l1), l2. repeat split; try done.
      * by apply score_lt_trans with (v i).
      * intros j [->|Hj]%elem_of_cons; [done|by apply H1].
  - apply not_true_iff_false in Hgt. rewrite score_gt_spec in Hgt.
    assert (score_le (v i) bestScore) as Hi.
    { destruct (score_le_total (v i) bestScore) as [|Hlt]; [done|].
      by destruct Hgt. }
    destruct (IH bestScore move) as [[Heq Hle]|(m & l1 & l2 & -> & Heq & Hlt & H1 & H2)].
    + left. split; [done|].
      intros j [->|Hj]%elem_of_cons; [done|by apply Hle].
    + right. exists m, (i :: l1), l2. repeat split; try done.
      intros j [->|Hj]%elem_of_cons; [|by apply H1].
      by apply score_le_lt_trans with bestScore.
Qed.

Lemma emptySquares_sorted (b : Board) : StronglySorted lt (emptySquares b).
Proof.
  rewrite emptySquares_filter. generalize (length b), 0%nat.
  intros n. induction n as [|n IH]; intros k; [constructor|].
  cbn [seq]. rewrite filter_cons. destruct (decide _); [|apply IH].
  apply StronglySorted_cons. split; [|apply IH].
  apply Forall_forall. intros j [_ Hj%elem_of_seq]%list_elem_of_filter. lia.
Qed.

Lemma moveScore_inRange (b : Board) i :
  b !! i = Some None → inRange (moveScore b i).
Proof.
  intros Hi. apply value_range.
  pose proof (countNull_insert b i MarkO Hi).
  pose proof (countNull_le_length b). lia.
Qed.

(** On a board with a [null] cell [computerMove] settles on a [null]
    cell of the highest score, the one of the smallest index among them. *)
Lemma bestMove_spec (b : Board) :
  (∃ i, b !! i = Some None) →
  ∃ m, bestMove b = Normal (moveScore b m, Some m)
       ∧ b !! m = Some None
       ∧ ∀ j, b !! j = Some None →
              score_le (moveScore b j) (moveScore b m)
              ∧ (score_le (moveScore b m) (moveScore b j) → (m ≤ j)%nat).
Proof.
  intros [k Hk]. unfold bestMove. rewrite computerMove_loop_pick.
  destruct (pick_spec (moveScore b) (emptySquares b) NegInf None)
    as [[_ Hle]|(m & l1 & l2 & Hsplit & Heq & _ & H1 & H2)].
  { destruct (moveScore_inRange b k Hk) as (z & Hz & _).
    specialize (Hle k). rewrite Hz in Hle. destruct Hle.
    by apply elem_of_emptySquares. }
  exists m. rewrite Heq. split; [done|].
  assert (m ∈ emptySquares b) as Hm.
  { rewrite Hsplit. apply elem_of_app. right. by left. }
  split; [by apply elem_of_emptySquares|].
  intros j Hj%elem_of_emptySquares.
  pose proof (emptySquares_sorted b) as Hsorted. rewrite Hsplit in Hsorted.
  apply StronglySorted_app in Hsorted as (_ & _ & Hsorted).
  apply StronglySorted_cons in Hsorted as [Hafter _].
  rewrite Forall_forall in Hafter.
  rewrite Hsplit in Hj. apply elem_of_app in Hj as [Hj|[->|Hj]%elem_of_cons].
  - split; [by apply score_lt_le, H1|]. intros Hle. by destruct (H1 j Hj).
  - split; [apply score_le_refl|lia].
  - split; [by apply H2|]. intros _. specialize (Hafter j Hj). lia.
Qed.

(** ** checkWinner *)

(** The three cells of a combination all hold the mark [m]. *)
Definition lineOf (b : Board) (m : mark) (combination : nat * nat * nat) : Prop :=
  let '(i, j, k) := combination in
  b !! i = Some (Some m) ∧ b !! j = Some (Some m) ∧ b !! k = Some (Some m).

(** The mark [m] holds one of the eight lines. *)
Definition wonBy (b : Board) (m : mark) : Prop :=
  ∃ combination, combination ∈ winningCombinations ∧ lineOf b m combination.

Lemma checkCombination_Some (b : Board) combination m :
  checkCombination b combination = Some m ↔ lineOf b m combination.
Proof.
  destruct combination as [[i j] k]. unfold checkCombination, lineOf.
  destruct (b !! i) as [[[]|]|], (b !! j) as [[[]|]|], (b !! k) as [[[]|]|];
    simpl; split; intros H; try done;
    try (destruct H as (? & ? & ?); congruence);
    injection H as <-; done.
Qed.

Lemma checkCombination_None (b : Board) combination :
  checkCombination b combination = None ↔ ∀ m, ¬ lineOf b m combination.
Proof.
  split.
  - intros Hnone m Hm%checkCombination_Some. congruence.
  - intros Hno. destruct (checkCombination b combination) as [m|] eqn:Hc; [|done].
    apply checkCombination_Some in Hc. by destruct (Hno m).
Qed.

(** The loop returns the mark of the first combination that is a line. *)
Lemma firstWinner_Some (b : Board) combinations m :
  firstWinner b combinations = Some m
  ↔ ∃ before combination after,
      combinations = before ++ combination :: after
      ∧ lineOf b m combination
      ∧ ∀ c m', c ∈ before → ¬ lineOf b m' c.
Proof.
  induction combinations as [|c rest IH]; simpl.
  { split; [done|]. intros ([|??] & ? & ? & ? & _); done. }
  destruct (checkCombination b c) as [mc|] eqn:Hc.
  - apply checkCombination_Some in Hc. split.
    + intros [= <-]. exists [], c, rest. repeat split; [done|].
      intros c' m' Hc'. by apply elem_of_nil in Hc'.
    + intros ([|c' before] & c'' & after & Heq & Hline & Hbefore); simplify_eq/=.
      * destruct c'' as [[i j] k], Hc as [Hc _], Hline as [Hline _]. congruence.
      * destruct (Hbefore c' mc); [by left|done].
  - rewrite IH. pose proof (proj1 (checkCombination_None b c) Hc) as Hno. split.
    + intros (before & c' & after & -> & Hline & Hbefore).
      exists (c :: before), c', after. repeat split; [done|].
      intros c'' m' [->|Hin]%elem_of_cons; [apply Hno|by apply Hbefore].
    + intros ([|c' before] & c'' & after & Heq & Hline & Hbefore); simplify_eq/=.
      * by destruct (Hno m).
      * exists before, c'', after. repeat split; [done|].
        intros c m' Hin. apply Hbefore. by right.
Qed.

Lemma firstWinner_None (b : Board) combinations :
  firstWinner b combinations = None
  ↔ ∀ c m, c ∈ combinations → ¬ lineOf b m c.
Proof.
  induction combinations as [|c rest IH]; simpl.
  { split; [|done]. intros _ c m Hc. by apply elem_of_nil in Hc. }
  destruct (checkCombination b c) as [mc|] eqn:Hc.
  - split; [done|]. intros Hno. apply checkCombination_Some in Hc.
    destruct (Hno c mc); [by left|done].
  - rewrite IH. pose proof (proj1 (checkCombination_None b c) Hc) as Hno. split.
    + intros Hrest c' m [->|Hin]%elem_of_cons; [apply Hno|by apply Hrest].
    + intros Hall c' m Hin. apply Hall. by right.
Qed.

Lemma firstWinner_wonBy (b : Board) m :
  firstWinner b winningCombinations = Some m → wonBy b m.
Proof.
  intros (before & c & after & Heq & Hline & _)%firstWinner_Some.
  exists c. split; [|done]. rewrite Heq. apply elem_of_app. right. by left.
Qed.

Lemma forallb_Boolean_true (b : Board) :
  forallb Boolean b = true ↔ ∀ i, b !! i ≠ Some None.
Proof.
  split.
  - intros Hall i Hi. rewrite forallb_forall in Hall.
    specialize (Hall None). rewrite <- list_elem_of_In in Hall.
    by specialize (Hall (list_elem_of_lookup_2 _ _ _ Hi)).
  - intros Hno. destruct (forallb Boolean b) eqn:Hall; [done|].
    apply forallb_Boolean_false in Hall as [i Hi]. by destruct (Hno i).
Qed.

(** ** Boards and states used as examples *)

Definition emptyBoard : Board := replicate 9 None.

(** A state in which the round is running: no winner recorded, countdown
    over, round ready. *)
Definition playing (b : Board) (playerTurn : bool) : state :=
  mkState b playerTurn None 0 0 0 0 true true.

(** Top row of ["X"], middle row of ["O"]. *)
Definition twoLines : Board :=
  [Some MarkX; Some MarkX; Some MarkX;
   Some MarkO; Some MarkO; Some MarkO;
   None; None; None].

(** A full board without a line. *)
Definition drawBoard : Board :=
  [Some MarkX; Some MarkO; Some MarkX;
   Some MarkX; Some MarkO; Some MarkO;
   Some MarkO; Some MarkX; Some MarkX].

(** Scenario 3 of the specification, with A = ["X"] and B = ["O"]. *)
Definition scenario3 : Board :=
  [Some MarkX; Some MarkO; Some MarkX;
   Some MarkO; Some MarkX; Some MarkO;
   None; None; None].

(** ["X"] threatens both the top row and the left column. *)
Definition forkBoard : Board :=
  [Some MarkX; Some MarkX; None;
   Some MarkX; Some MarkO; None;
   None; None; Some MarkO].

(** Scenario 2 of the specification, on which the side to move by the
    counts is ["X"]. *)
Definition scenario2 : Board :=
  [Some MarkX; Some MarkX; None;
   Some MarkO; Some MarkO; None;
   None; None; None].

(** ** C2: what checkWinner returns *)

(** When both marks hold a line, which no alternation of moves produces,
    the mark of the combination listed first is the one reported: here
    the top row of ["X"], before the middle row of ["O"]. *)
Example checkWinner_first_combination :
  wonBy twoLines MarkX
  ∧ wonBy twoLines MarkO
  ∧ checkWinner twoLines = Some (Won MarkX).
Proof.
  split_and!; [exists (0, 1, 2)%nat|exists (3, 4, 5)%nat|done];
    (split; [|done]); unfold winningCombinations;
    apply list_elem_of_In; simpl; tauto.
Qed.

(** C2: on every board, [checkWinner] returns a mark as soon as one of
    the eight combinations (three rows, three columns, two diagonals) has
    its three cells equal to one same mark, and the mark it returns holds
    such a line: it is the mark of the first such combination in the
    order listed, hence [m] itself when [m] has a line and the other mark
    has none. It returns ["Tie"] exactly when no mark has a line and no
    cell is [null], and [null] exactly when no mark has a line and some
    cell is [null]. *)
Theorem checkWinner_spec (b : Board) :
  (∀ m, checkWinner b = Some (Won m)
        ↔ ∃ before combination after,
            winningCombinations = before ++ combination :: after
            ∧ lineOf b m combination
            ∧ ∀ c m', c ∈ before → ¬ lineOf b m' c)
  ∧ (∀ m, wonBy b m → ¬ wonBy b (other m) → checkWinner b = Some (Won m))
  ∧ (∀ m, checkWinner b = Some (Won m) → wonBy b m)
  ∧ (checkWinner b = Some Tie
     ↔ (∀ m, ¬ wonBy b m) ∧ ∀ i, b !! i ≠ Some None)
  ∧ (checkWinner b = None
     ↔ (∀ m, ¬ wonBy b m) ∧ ∃ i, b !! i = Some None)
  ∧ (∀ m, wonBy b m → ∃ m', checkWinner b = Some (Won m') ∧ wonBy b m').
Proof.
  assert (firstWinner b winningCombinations = None ↔ ∀ m, ¬ wonBy b m) as Hnone.
  { rewrite firstWinner_None. unfold wonBy. split.
    - intros Hno m (c & Hc & Hline). by apply (Hno c m).
    - intros Hno c m Hc Hline. apply (Hno m). by exists c. }
  pose proof (forallb_Boolean_true b) as Hfull.
  pose proof (firstWinner_Some b winningCombinations) as Hfirst'.
  unfold checkWinner.
  destruct (firstWinner b winningCombinations) as [w|] eqn:Hfirst.
  - pose proof (firstWinner_wonBy b w Hfirst) as Hw.
    assert (¬ ∀ m, ¬ wonBy b m) as Hsome by (intros Hno; by destruct (Hno w)).
    split_and!.
    + intros m. rewrite <- Hfirst'. split; congruence.
    + intros m Hm Hother. f_equal. f_equal.
      destruct w, m; try done; by destruct Hother.
    + by intros m [= <-].
    + split; [done|tauto].
    + split; [done|tauto].
    + intros m _. by exists w.
  - pose proof (proj1 Hnone eq_refl) as Hno. split_and!.
    + intros m. rewrite <- Hfirst'. destruct (forallb Boolean b); split; done.
    + intros m Hm. by destruct (Hno m).
    + intros m. destruct (forallb Boolean b); done.
    + destruct (forallb Boolean b).
      * split; [|done]. intros _. split; [done|]. by apply Hfull.
      * split; [done|]. intros [_ Hall]. by apply Hfull in Hall.
    + destruct (forallb Boolean b) eqn:Hall.
      * split; [done|]. intros [_ [i Hi]].
        by destruct (proj1 Hfull eq_refl i).
      * split; [|done]. intros _. split; [done|].
        by apply forallb_Boolean_false.
    + intros m Hm. by destruct (Hno m).
Qed.

(** ** C4, C5: clicks that are refused *)

(** C4, as stated, fails: a click on the occupied cell 0 of a running
    round signals no [InvalidMove]; the call returns normally. *)
Lemma handleClick_occupied_counterexample :
  board (playing scenario3 true) !! 0%nat = Some (Some MarkX)
  ∧ handleClick 0 (playing scenario3 true) = Normal (playing scenario3 true)
  ∧ handleClick 0 (playing scenario3 true) ≠ Throw InvalidMove.
Proof. done. Qed.

(** C4 (amended): for every state and every index whose cell is occupied,
    [handleClick] returns normally, without signalling an error, and
    leaves the board and the rest of the state unchanged. *)
Theorem handleClick_occupied (s : state) (index : nat) (m : mark) :
  board s !! index = Some (Some m) →
  handleClick index s = Normal s.
Proof.
  intros Hcell. unfold handleClick, clickRefused. by rewrite Hcell.
Qed.

Lemma handleClick_occupied_witness :
  board (playing scenario3 true) !! 4%nat = Some (Some MarkX)
  ∧ handleClick 4 (playing scenario3 true) = Normal (playing scenario3 true).
Proof.
  split; [reflexivity|].
  apply (handleClick_occupied (playing scenario3 true) 4 MarkX). reflexivity.
Defined.

(** C5, as stated, fails: on the full board without a line, where
    [checkWinner] reports ["Tie"], a click signals no [GameAlreadyOver];
    the call returns normally. *)
Lemma handleClick_terminal_counterexample :
  checkWinner (board (playing drawBoard true)) = Some Tie
  ∧ handleClick 4 (playing drawBoard true) = Normal (playing drawBoard true)
  ∧ handleClick 4 (playing drawBoard true) ≠ Throw GameAlreadyOver.
Proof. done. Qed.

Lemma checkWinner_Tie_full (b : Board) :
  checkWinner b = Some Tie → ∀ i, b !! i ≠ Some None.
Proof.
  unfold checkWinner. destruct (firstWinner b winningCombinations); [done|].
  destruct (forallb Boolean b) eqn:Hall; [|done].
  intros _. by apply forallb_Boolean_true.
Qed.

(** C5 (amended): on a board whose outcome is a win or a tie,
    [handleClick] returns normally, without signalling an error, and
    changes nothing, whenever the outcome has been recorded in [winner]
    (as the effect does) or the outcome is a tie and the index is that of
    a cell. *)
Theorem handleClick_terminal (s : state) (index : nat) :
  checkWinner (board s) ≠ None →
  is_Some (winner s)
  ∨ (checkWinner (board s) = Some Tie ∧ (index < length (board s))%nat) →
  handleClick index s = Normal s.
Proof.
  intros _ [Hw|[Htie Hlt]]; unfold handleClick, clickRefused.
  - rewrite (bool_decide_eq_true_2 _ Hw). by rewrite orb_true_r.
  - apply lookup_lt_is_Some_2 in Hlt as [[m|] Hc].
    + by rewrite Hc.
    + by destruct (checkWinner_Tie_full _ Htie index).
Qed.

Lemma handleClick_terminal_witness :
  handleClick 6 (updateWinner (Won MarkX) (playing twoLines true))
  = Normal (updateWinner (Won MarkX) (playing twoLines true))
  ∧ handleClick 4 (playing drawBoard true) = Normal (playing drawBoard true).
Proof.
  split.
  - apply (handleClick_terminal (updateWinner (Won MarkX) (playing twoLines true)) 6).
    + vm_compute. discriminate.
    + left. simpl. eauto.
  - apply (handleClick_terminal (playing drawBoard true) 4).
    + vm_compute. discriminate.
    + right. split; [reflexivity|simpl; lia].
Defined.

(** ** C6: computerMove on a finished board *)

(** C6, as stated, fails: on the full board without a line
    [computerMove] signals no [PreconditionViolated]; it returns normally,
    having only given the turn to the player. *)
Lemma computerMove_terminal_counterexample :
  checkWinner (board (playing drawBoard false)) = Some Tie
  ∧ computerMove (playing drawBoard false) = Normal (playing drawBoard true)
  ∧ computerMove (playing drawBoard false) ≠ Throw PreconditionViolated.
Proof. done. Qed.

Lemma emptySquares_full (b : Board) :
  (∀ i, b !! i ≠ Some None) → emptySquares b = [].
Proof.
  intros Hfull. destruct (emptySquares b) as [|i l] eqn:He; [done|].
  destruct (Hfull i). apply elem_of_emptySquares. rewrite He. by left.
Qed.

(** Whatever the board, [computerMove] returns normally. *)
Lemma computerMove_Normal (s : state) :
  ∃ sc move,
    bestMove (board s) = Normal (sc, move)
    ∧ computerMove s
      = Normal (setIsPlayerTurn true
                  match move with
                  | Some i => setBoard (<[i := Some MarkO]> (board s)) s
                  | None => s
                  end).
Proof.
  unfold computerMove, bestMove. rewrite computerMove_loop_pick.
  destruct (pick _ _ _ _) as [sc move]. by exists sc, move.
Qed.

(** C6 (amended): on a board whose outcome is a win or a tie,
    [computerMove] signals no error: it returns normally with the turn
    given to the player, and when the board is full (as on every tie) it
    has found no move and leaves the board unchanged. *)
Theorem computerMove_terminal (s : state) :
  checkWinner (board s) ≠ None →
  ∃ s', computerMove s = Normal s'
        ∧ isPlayerTurn s' = true
        ∧ ((∀ i, board s !! i ≠ Some None) →
           bestMove (board s) = Normal (NegInf, None)
           ∧ s' = setIsPlayerTurn true s).
Proof.
  intros _. destruct (computerMove_Normal s) as (sc & move & Hbest & ->).
  eexists. split; [done|]. split; [done|].
  intros Hfull. unfold bestMove in *.
  rewrite (emptySquares_full _ Hfull) in *. simpl in Hbest.
  by injection Hbest as <- <-.
Qed.

Lemma computerMove_terminal_witness :
  ∃ s', computerMove (playing drawBoard false) = Normal s'
        ∧ isPlayerTurn s' = true
        ∧ ((∀ i, drawBoard !! i ≠ Some None) →
           bestMove drawBoard = Normal (NegInf, None)
           ∧ s' = setIsPlayerTurn true (playing drawBoard false)).
Proof.
  apply (computerMove_terminal (playing drawBoard false)).
  vm_compute. discriminate.
Defined.

(** ** C10: the search restores the array *)

Lemma minimax_loop_frame rec isMaximizing indices :
  (∀ (b1 : Board) f1 s1 b1', rec b1 f1 = Normal (s1, b1') → b1' = b1) →
  ∀ (b : Board) bestScore sc b',
  minimax_loop rec isMaximizing indices b bestScore = Normal (sc, b') →
  b' = b.
Proof.
  intros Hrec. induction indices as [|i indices IH]; intros b bestScore sc b'.
  { by intros [= _ <-]. }
  cbn [minimax_loop]. destruct (isNull (b !! i)) eqn:Hi; [|apply IH].
  apply isNull_Some in Hi.
  destruct (rec (<[i := Some (player isMaximizing)]> b) (negb isMaximizing))
    as [[s1 b1]| |] eqn:Hcall; try done.
  apply Hrec in Hcall as ->. simpl. rewrite insert_reset by done. apply IH.
Qed.

Lemma minimax_fuel_frame fuel :
  ∀ (b : Board) isMaximizing sc b',
  minimax_fuel fuel b isMaximizing = Normal (sc, b') → b' = b.
Proof.
  induction fuel as [|fuel IH]; intros b isMaximizing sc b'; [done|].
  cbn [minimax_fuel]. destruct (checkWinner b) as [[[]|]|].
  1-3: by intros [= _ <-].
  by apply minimax_loop_frame.
Qed.

(** C10: for every board and flag the call [minimax(newBoard,
    isMaximizing)] returns, and the array it was given, which the search
    writes and resets on the way, holds its original contents at the
    return; the same holds for every bound on the depth at which the
    search returns. *)
Theorem minimax_restores_board (newBoard : Board) (isMaximizing : bool) :
  (∃ sc, minimax newBoard isMaximizing = Normal (sc, newBoard))
  ∧ ∀ fuel sc b',
      minimax_fuel fuel newBoard isMaximizing = Normal (sc, b') → b' = newBoard.
Proof.
  split.
  - eexists. apply minimax_value.
  - intros fuel sc b'. apply minimax_fuel_frame.
Qed.

(** ** C9: scenario 3 *)

(** C9: on the board [X,O,X,O,X,O,null,null,null] with ["O"] to move,
    [computerMove] settles on index 6, one of the two indices 6 and 8, and
    writes its mark there. *)
Theorem computerMove_scenario3 :
  ∃ m sc,
    bestMove scenario3 = Normal (sc, Some m)
    ∧ (m = 6 ∨ m = 8)%nat
    ∧ computerMove (playing scenario3 false)
      = Normal (playing (<[m := Some MarkO]> scenario3) true).
Proof. exists 6%nat, (Num (-1)). split_and!; [done|by left|done]. Qed.

(** ** C3: the tie-break *)

(** On the empty board every first move scores 0 and the first cell is
    taken. *)
Lemma bestMove_emptyBoard : bestMove emptyBoard = Normal (Num 0, Some 0%nat).
Proof. vm_compute. reflexivity. Qed.

(** C3: on every board on which [checkWinner] reports nothing,
    [computerMove] settles on an empty square whose [minimax] score is
    maximal among the empty squares, and no empty square of a smaller
    index has that score. *)
Theorem bestMove_first_maximal (b : Board) :
  checkWinner b = None →
  ∃ m sc,
    bestMove b = Normal (sc, Some m)
    ∧ b !! m = Some None
    ∧ minimax (<[m := Some MarkO]> b) false = Normal (sc, <[m := Some MarkO]> b)
    ∧ ∀ j sj,
        b !! j = Some None →
        minimax (<[j := Some MarkO]> b) false = Normal (sj, <[j := Some MarkO]> b) →
        score_le sj sc ∧ (sj = sc → (m ≤ j)%nat).
Proof.
  intros Hw%checkWinner_None_null.
  destruct (bestMove_spec b Hw) as (m & Hbest & Hm & Hmax).
  exists m, (moveScore b m). split_and!; [done..|apply minimax_moveScore|].
  intros j sj Hj. rewrite minimax_moveScore. intros [= <-].
  destruct (Hmax j Hj) as [Hle Hfirst]. split; [done|].
  intros Heq. apply Hfirst. rewrite Heq. apply score_le_refl.
Qed.

Lemma bestMove_first_maximal_witness :
  ∃ m sc,
    bestMove emptyBoard = Normal (sc, Some m)
    ∧ emptyBoard !! m = Some None
    ∧ minimax (<[m := Some MarkO]> emptyBoard) false
      = Normal (sc, <[m := Some MarkO]> emptyBoard)
    ∧ ∀ j sj,
        emptyBoard !! j = Some None →
        minimax (<[j := Some MarkO]> emptyBoard) false
        = Normal (sj, <[j := Some MarkO]> emptyBoard) →
        score_le sj sc ∧ (sj = sc → (m ≤ j)%nat).
Proof. apply (bestMove_first_maximal emptyBoard). reflexivity. Defined.

(** ** C8: the marks on the board *)

Lemma countMark_insert (b : Board) i m m' :
  b !! i = Some None →
  countMark m (<[i := Some m']> b)
  = if decide (m = m') then S (countMark m b) else countMark m b.
Proof.
  unfold countMark. revert i. induction b as [|c b IH]; intros [|i] Hi; try done.
  - simpl in Hi. injection Hi as ->.
    change (<[0%nat := Some m']> (None :: b)) with (Some m' :: b).
    rewrite (filter_cons_False _ None) by done.
    destruct (decide (m = m')) as [->|Hne].
    + by rewrite filter_cons_True.
    + rewrite filter_cons_False; [done|]. congruence.
  - simpl in Hi. specialize (IH i Hi).
    change (<[S i := Some m']> (c :: b)) with (c :: <[i := Some m']> b).
    rewrite !filter_cons. destruct (decide (c = Some m)); simpl; rewrite IH;
      by destruct (decide (m = m')).
Qed.

(** What the turn flag says about the counts: on the player's turn the
    counts are equal, or the player has one more mark and the board is
    full; on the computer's turn the player has one more mark. *)
Definition turnInvariant (s : state) : Prop :=
  let x := countMark MarkX (board s) in
  let o := countMark MarkO (board s) in
  if isPlayerTurn s
  then x = o ∨ (x = S o ∧ ∀ i, board s !! i ≠ Some None)
  else x = S o.

Lemma handleClick_turnInvariant (s s' : state) index :
  (index < length (board s))%nat →
  handleClick index s = Normal s' →
  turnInvariant s → turnInvariant s'.
Proof.
  intros Hlt. unfold handleClick.
  destruct (clickRefused index s) eqn:Hrefused; intros [= <-]; [done|].
  unfold clickRefused in Hrefused.
  repeat (apply orb_false_elim in Hrefused as [Hrefused ?]).
  apply lookup_lt_is_Some_2 in Hlt as [[m|] Hc]; [by rewrite Hc in Hrefused|].
  unfold turnInvariant. destruct (isPlayerTurn s); [|done]. simpl.
  rewrite !countMark_insert by done. simpl.
  intros [->|[_ Hfull]]; [done|]. by destruct (Hfull index).
Qed.

Lemma computerMove_turnInvariant (s s' : state) :
  aiTurn s = true →
  computerMove s = Normal s' →
  turnInvariant s → turnInvariant s'.
Proof.
  intros Hai. unfold aiTurn in Hai.
  repeat (apply andb_prop in Hai as [Hai ?]). apply negb_true_iff in Hai.
  destruct (computerMove_Normal s) as (sc & move & Hbest & ->).
  intros [= <-]. unfold turnInvariant. rewrite Hai. simpl.
  destruct (emptySquares (board s)) as [|k l] eqn:Hempty.
  - unfold bestMove in Hbest. rewrite Hempty in Hbest.
    injection Hbest as <- <-. intros Hx. right. split; [done|].
    intros i Hi%elem_of_emptySquares. rewrite Hempty in Hi.
    by apply elem_of_nil in Hi.
  - destruct (bestMove_spec (board s)) as (m & Hm & Hnull & _).
    { exists k. apply elem_of_emptySquares. rewrite Hempty. by left. }
    rewrite Hm in Hbest. injection Hbest as <- <-. simpl.
    rewrite !countMark_insert by done. simpl. intros ->. by left.
Qed.

Lemma step_turnInvariant (s s' : state) :
  step s s' → turnInvariant s → turnInvariant s'.
Proof.
  intros [index s1 s2 Hlt Hclick|s1 s2 Hai Hmove|s1 w _ _ _|s1 _ _|s1 _ _ _|s1].
  - by apply handleClick_turnInvariant with index.
  - by apply computerMove_turnInvariant.
  - by destruct w as [[]|].
  - done.
  - done.
  - intros _. by left.
Qed.

Lemma reachable_turnInvariant (s : state) : reachable s → turnInvariant s.
Proof.
  induction 1 as [|s s' _ IH Hstep]; [by left|].
  by apply step_turnInvariant with s.
Qed.

(** C8: in every state the component reaches from its initial state, with
    the empty board, the number of ["X"] on the board minus the number of
    ["O"] is 0 or 1. *)
Theorem reachable_mark_counts (s : state) :
  reachable s →
  Z.of_nat (countMark MarkX (board s)) - Z.of_nat (countMark MarkO (board s)) = 0
  ∨ Z.of_nat (countMark MarkX (board s)) - Z.of_nat (countMark MarkO (board s)) = 1.
Proof.
  intros Hinv%reachable_turnInvariant. unfold turnInvariant in Hinv.
  destruct (isPlayerTurn s); [destruct Hinv as [?|[? _]]|]; lia.
Qed.

(** States of a round that has just started: after the start button, the
    countdown, a click on the centre, and the reply of the computer. *)
Definition roundStarted : state :=
  setRoundReady true
    (setCountdown 0 (setCountdown 1 (setCountdown 2 (startNewGame initialState)))).

Definition centreClicked : state :=
  setIsPlayerTurn false (setBoard (<[4%nat := Some MarkX]> emptyBoard) roundStarted).

Definition centreAnswered : state :=
  setIsPlayerTurn true
    (setBoard (<[0%nat := Some MarkO]> (<[4%nat := Some MarkX]> emptyBoard))
       centreClicked).

Lemma reachable_roundStarted : reachable roundStarted.
Proof.
  pose (s3 := startNewGame initialState).
  pose (s2 := setCountdown 2 s3).
  pose (s1 := setCountdown 1 s2).
  pose (s0 := setCountdown 0 s1).
  assert (reachable s3) as H3.
  { apply reachable_step with initialState; [apply reachable_init|apply step_start]. }
  assert (reachable s2) as H2.
  { apply reachable_step with s3; [done|]. exact (step_countdown s3 eq_refl eq_refl). }
  assert (reachable s1) as H1.
  { apply reachable_step with s2; [done|]. exact (step_countdown s2 eq_refl eq_refl). }
  assert (reachable s0) as H0.
  { apply reachable_step with s1; [done|]. exact (step_countdown s1 eq_refl eq_refl). }
  apply reachable_step with s0; [done|].
  exact (step_ready s0 eq_refl eq_refl eq_refl).
Qed.

Lemma reachable_centreClicked : reachable centreClicked.
Proof.
  eapply reachable_step; [apply reachable_roundStarted|].
  apply (step_click 4); [simpl; lia|reflexivity].
Qed.

Lemma reachable_centreAnswered : reachable centreAnswered.
Proof.
  eapply reachable_step; [apply reachable_centreClicked|].
  apply step_computer; [reflexivity|]. vm_compute. reflexivity.
Qed.

Lemma reachable_mark_counts_witness :
  Z.of_nat (countMark MarkX (board centreAnswered))
  - Z.of_nat (countMark MarkO (board centreAnswered)) = 0
  ∨ Z.of_nat (countMark MarkX (board centreAnswered))
    - Z.of_nat (countMark MarkO (board centreAnswered)) = 1.
Proof. apply (reachable_mark_counts centreAnswered), reachable_centreAnswered. Defined.

(** ** C7: the flag and the turn derived from the board *)

(** The flag names the side that is to move by the counts: the computer
    when the player has one more mark, the player when the counts are
    equal. *)
Definition flagMatchesTurn (b : Board) (isMaximizing : bool) : Prop :=
  if isMaximizing
  then countMark MarkX b = S (countMark MarkO b)
  else countMark MarkX b = countMark MarkO b.

Lemma flagMatchesTurn_player (b : Board) isMaximizing :
  flagMatchesTurn b isMaximizing → derivedTurn b = player isMaximizing.
Proof.
  unfold flagMatchesTurn, derivedTurn. destruct isMaximizing; intros ->; simpl.
  - by rewrite (proj2 (Nat.ltb_lt _ _)) by lia.
  - by rewrite Nat.ltb_irrefl.
Qed.

Lemma flagMatchesTurn_insert (b : Board) isMaximizing i :
  flagMatchesTurn b isMaximizing →
  b !! i = Some None →
  flagMatchesTurn (<[i := Some (player isMaximizing)]> b) (negb isMaximizing).
Proof.
  unfold flagMatchesTurn. intros Hf Hi.
  destruct isMaximizing; simpl; rewrite !countMark_insert by done; simpl; lia.
Qed.

Lemma mapC_Normal {A B} (g : A → completion B) (h : A → B) (l : list A) :
  (∀ a, a ∈ l → g a = Normal (h a)) → mapC g l = Normal (map h l).
Proof.
  induction l as [|a l IH]; intros Hg; [done|].
  cbn [mapC]. rewrite Hg by (by left). simpl.
  rewrite IH by (intros a' Ha'; apply Hg; by right). done.
Qed.

Lemma score_max_left_comm a b c :
  score_max a (score_max b c) = score_max b (score_max a c).
Proof. destruct a, b, c; simpl; try done; f_equal; lia. Qed.

Lemma score_min_left_comm a b c :
  score_min a (score_min b c) = score_min b (score_min a c).
Proof. destruct a, b, c; simpl; try done; f_equal; lia. Qed.

(** The running maximum, resp. minimum, of the loop is the maximum, resp.
    minimum, of the list of child scores. *)
Lemma foldl_combine_foldr isMaximizing (v : nat → score) (l : list nat) acc :
  foldl (λ bestScore i, combine isMaximizing (v i) bestScore) acc l
  = foldr (if isMaximizing then score_max else score_min) acc (map v l).
Proof.
  revert acc. induction l as [|j l IH]; intros acc; [done|].
  cbn [foldl map foldr]. rewrite IH. clear IH.
  induction (map v l) as [|x xs IHxs]; [by destruct isMaximizing|].
  cbn [foldr]. rewrite IHxs.
  destruct isMaximizing; [apply score_max_left_comm|apply score_min_left_comm].
Qed.

(** When the flag names the side to move by the counts, the flag-free
    search of the specification computes the score of [minimax]. *)
Lemma scoreDerived_fuel_value fuel :
  ∀ (b : Board) isMaximizing,
  flagMatchesTurn b isMaximizing →
  (countNull b < fuel)%nat →
  scoreDerived_fuel fuel b MarkO = Normal (value fuel b isMaximizing).
Proof.
  induction fuel as [|fuel IH]; intros b isMaximizing Hflag Hfuel; [lia|].
  cbn [scoreDerived_fuel value].
  destruct (checkWinner b) as [[[]|]|] eqn:Hw; try done.
  rewrite (flagMatchesTurn_player b isMaximizing Hflag).
  rewrite (mapC_Normal _ (λ i, value fuel (<[i := Some (player isMaximizing)]> b)
                                 (negb isMaximizing))).
  - simpl. f_equal.
    rewrite (foldl_combine_foldr isMaximizing
               (λ i, value fuel (<[i := Some (player isMaximizing)]> b)
                       (negb isMaximizing))).
    by destruct isMaximizing.
  - intros i Hi%elem_of_emptySquares. apply IH.
    + by apply flagMatchesTurn_insert.
    + pose proof (countNull_insert b i (player isMaximizing) Hi). lia.
Qed.

(** C7, as stated, fails: on the board [X,X,null,O,O,null,null,null,null]
    the side to move by the counts is ["X"], but [minimax] called with
    [isMaximizing] places ["O"], the mark the flag names, and its score
    differs from that of the search that derives the turn from the
    board. *)
Lemma minimax_flag_counterexample :
  derivedTurn scenario2 = MarkX
  ∧ player true = MarkO
  ∧ minimax scenario2 true = Normal (Num 1, scenario2)
  ∧ scoreDerived scenario2 MarkO = Normal (Num (-1)).
Proof. done. Qed.

(** C7 (amended): at every level of the search the mark placed is the one
    the flag [isMaximizing] names, ["O"] when it is set and ["X"]
    otherwise, and the flag is negated at each recursive call. When the
    flag names the side to move by the counts of the board, it still does
    so after each placement, the mark placed is the one whose turn it is
    by the counts, and [minimax] returns the score of the flag-free search
    of the specification. *)
Theorem minimax_flag_matches_turn (b : Board) (isMaximizing : bool) :
  flagMatchesTurn b isMaximizing →
  player isMaximizing = derivedTurn b
  ∧ (∀ i, b !! i = Some None →
          flagMatchesTurn (<[i := Some (player isMaximizing)]> b)
            (negb isMaximizing))
  ∧ ∃ sc, minimax b isMaximizing = Normal (sc, b)
          ∧ scoreDerived b MarkO = Normal sc.
Proof.
  intros Hflag. split_and!.
  - by rewrite (flagMatchesTurn_player b isMaximizing).
  - intros i Hi. by apply flagMatchesTurn_insert.
  - exists (value (S (length b)) b isMaximizing). split; [apply minimax_value|].
    apply scoreDerived_fuel_value; [done|].
    pose proof (countNull_le_length b). lia.
Qed.

Lemma minimax_flag_matches_turn_witness :
  player true = derivedTurn forkBoard
  ∧ (∀ i, forkBoard !! i = Some None →
          flagMatchesTurn (<[i := Some (player true)]> forkBoard) (negb true))
  ∧ ∃ sc, minimax forkBoard true = Normal (sc, forkBoard)
          ∧ scoreDerived forkBoard MarkO = Normal sc.
Proof. apply (minimax_flag_matches_turn forkBoard true). reflexivity. Defined.

(** ** C1: the move chosen is optimal *)

Lemma Forces_mono p (good good' : result → Prop) turn (b : Board) :
  (∀ r, good r → good' r) → Forces p good turn b → Forces p good' turn b.
Proof.
  intros Himp. induction 1 as [turn b r Hw Hr|b i Hw Hi _ IH|b Hw _ IH].
  - apply Forces_over with r; [done|by apply Himp].
  - by apply Forces_own with i.
  - by apply Forces_other.
Qed.

Lemma computerWins_atLeast r : computerWins r ↔ atLeast 1 r.
Proof. unfold computerWins, atLeast. destruct r as [[]|]; simpl; split; (done || lia). Qed.

Lemma computerSafe_atLeast r : computerSafe r ↔ atLeast 0 r.
Proof. unfold computerSafe, atLeast. destruct r as [[]|]; simpl; split; (done || lia). Qed.

(** The score of a move is at least [t] exactly when the move lets the
    computer force a result worth at least [t]. *)
Lemma moveScore_forces (b : Board) i t :
  b !! i = Some None →
  score_le (Num t) (moveScore b i)
  ↔ Forces MarkO (atLeast t) MarkX (<[i := Some MarkO]> b).
Proof.
  intros Hi. apply (value_forces _ _ false).
  pose proof (countNull_insert b i MarkO Hi).
  pose proof (countNull_le_length b). lia.
Qed.

(** What the computer can force when it is to move, it can still force
    after the move [computerMove] settles on. *)
Lemma bestMove_forces (b : Board) m sc t :
  bestMove b = Normal (sc, Some m) →
  checkWinner b = None →
  Forces MarkO (atLeast t) MarkO b →
  Forces MarkO (atLeast t) MarkX (<[m := Some MarkO]> b).
Proof.
  intros Hbest Hw HF.
  inversion HF as [? ? r Hr|? i _ Hi HF'|]; simplify_eq.
  destruct (bestMove_spec b) as (m' & Hbest' & Hm & Hmax); [by exists i|].
  rewrite Hbest' in Hbest. injection Hbest as _ ->.
  apply moveScore_forces; [done|].
  apply moveScore_forces in HF'; [|done].
  apply score_le_trans with (moveScore b i); [done|]. by apply Hmax.
Qed.

(** If the computer can keep the player from winning, the player cannot
    force a win. *)
Lemma safe_not_playerWins turn (b : Board) :
  Forces MarkO computerSafe turn b → ¬ Forces MarkX playerWins turn b.
Proof.
  induction 1 as [turn b r Hw Hr|b i Hw Hi _ IH|b Hw _ IH]; intros HX.
  - inversion HX; simplify_eq. done.
  - inversion HX as [| |? _ Hall]; simplify_eq. by apply IH, Hall.
  - inversion HX as [|? i _ Hi HX'|]; simplify_eq. by apply (IH i).
Qed.

(** A line stays a line, and a full board has no move: a finished board
    stays finished when a mark is written into one of its [null] cells. *)
Lemma checkWinner_insert_finished (b : Board) i m :
  checkWinner b ≠ None →
  b !! i = Some None →
  checkWinner (<[i := Some m]> b) ≠ None.
Proof.
  unfold checkWinner. intros Hb Hi.
  destruct (firstWinner b winningCombinations) as [w|] eqn:Hfirst.
  - apply firstWinner_wonBy in Hfirst as ([[j k] l] & Hin & Hj & Hk & Hl).
    destruct (firstWinner (<[i := Some m]> b) winningCombinations) eqn:Hfirst';
      [done|].
    rewrite firstWinner_None in Hfirst'.
    destruct (Hfirst' (j, k, l) w Hin). clear Hfirst' Hin Hb.
    repeat split; (rewrite list_lookup_insert_ne; [assumption|]);
      intros ->; rewrite Hi in *; discriminate.
  - destruct (forallb Boolean b) eqn:Hall; [|destruct Hb; reflexivity].
    destruct (proj1 (forallb_Boolean_true b) Hall i). exact Hi.
Qed.

Lemma emptyBoard_value : value 10 emptyBoard false = Num 0.
Proof. vm_compute. reflexivity. Qed.

(** On the empty board with the player to move the computer can keep the
    player from winning. *)
Lemma emptyBoard_safe : Forces MarkO computerSafe MarkX emptyBoard.
Proof.
  apply Forces_mono with (atLeast 0); [intros r; apply computerSafe_atLeast|].
  assert (countNull emptyBoard < 10)%nat as Hfuel by (vm_compute; lia).
  pose proof (proj1 (value_forces 10 emptyBoard false 0 Hfuel)) as Hforces.
  apply Hforces. rewrite emptyBoard_value. exact (Z.le_refl 0).
Qed.

(** Along the game loop the board is finished, or the computer can keep
    the player from winning. *)
Definition safeInvariant (s : state) : Prop :=
  checkWinner (board s) ≠ None
  ∨ Forces MarkO computerSafe (if isPlayerTurn s then MarkX else MarkO) (board s).

Lemma step_safeInvariant (s s' : state) :
  step s s' → safeInvariant s → safeInvariant s'.
Proof.
  intros [index s1 s2 Hlt Hclick|s1 s2 Hai Hmove|s1 w _ _ _|s1 _ _|s1 _ _ _|s1].
  - unfold handleClick in Hclick.
    destruct (clickRefused index s1) eqn:Hrefused; injection Hclick as <-; [done|].
    unfold clickRefused in Hrefused.
    repeat (apply orb_false_elim in Hrefused as [Hrefused ?]).
    apply lookup_lt_is_Some_2 in Hlt as [[m|] Hc]; [by rewrite Hc in Hrefused|].
    unfold safeInvariant. destruct (isPlayerTurn s1); [|done]. simpl.
    intros [Hfin|HF]; [left; by apply checkWinner_insert_finished|].
    destruct (checkWinner (board s1)) as [r|] eqn:Hw.
    { left. apply checkWinner_insert_finished; [|done]. by rewrite Hw. }
    right. inversion HF as [| |? _ Hall]; simplify_eq. by apply Hall.
  - unfold aiTurn in Hai.
    repeat (apply andb_prop in Hai as [Hai ?]). apply negb_true_iff in Hai.
    destruct (computerMove_Normal s1) as (sc & move & Hbest & Heq).
    rewrite Heq in Hmove. injection Hmove as <-.
    unfold safeInvariant. rewrite Hai. simpl.
    destruct (checkWinner (board s1)) as [r|] eqn:Hw.
    + intros _. left. destruct move as [m|]; simpl; [|by rewrite Hw].
      assert (board s1 !! m = Some None) as Hm.
      { destruct (emptySquares (board s1)) as [|k l] eqn:Hempty.
        - unfold bestMove in Hbest. by rewrite Hempty in Hbest.
        - destruct (bestMove_spec (board s1)) as (m' & Hm' & Hnull & _).
          + exists k. apply elem_of_emptySquares. rewrite Hempty. by left.
          + rewrite Hm' in Hbest. by injection Hbest as _ <-. }
      apply checkWinner_insert_finished; [|exact Hm]. by rewrite Hw.
    + intros [Hfin|HF]; [by destruct Hfin|]. right.
      destruct (bestMove_spec (board s1)) as (m & Hm & Hnull & _).
      { by apply checkWinner_None_null. }
      rewrite Hm in Hbest. injection Hbest as <- <-. simpl.
      apply Forces_mono with (atLeast 0); [intros r; apply computerSafe_atLeast|].
      apply bestMove_forces with (moveScore (board s1) m); [exact Hm|exact Hw|].
      revert HF. apply Forces_mono. intros r. apply computerSafe_atLeast.
  - by destruct w as [[]|].
  - done.
  - done.
  - intros _. right. apply emptyBoard_safe.
Qed.

Lemma reachable_safeInvariant (s : state) : reachable s → safeInvariant s.
Proof.
  induction 1 as [|s s' _ IH Hstep]; [right; apply emptyBoard_safe|].
  by apply step_safeInvariant with s.
Qed.

(** C1, as stated, fails: [forkBoard] is in progress with the computer to
    move, yet the move [computerMove] settles on, index 2, does not
    guarantee a draw: the player answers on index 6 and completes the left
    column. (No move does better: the player threatens two lines.) *)
Lemma computerMove_fork_counterexample :
  checkWinner forkBoard = None
  ∧ flagMatchesTurn forkBoard true
  ∧ bestMove forkBoard = Normal (Num (-1), Some 2%nat)
  ∧ Forces MarkX playerWins MarkX (<[2%nat := Some MarkO]> forkBoard)
  ∧ ¬ Forces MarkO computerSafe MarkX (<[2%nat := Some MarkO]> forkBoard).
Proof.
  assert (Forces MarkX playerWins MarkX (<[2%nat := Some MarkO]> forkBoard)) as HX.
  { apply Forces_own with 6%nat; [reflexivity..|].
    apply Forces_over with (Won MarkX); reflexivity. }
  split_and!.
  - reflexivity.
  - reflexivity.
  - vm_compute. reflexivity.
  - exact HX.
  - intros HO. exact (safe_not_playerWins _ _ HO HX).
Qed.

(** C1 (amended): on every board on which [checkWinner] reports nothing
    [computerMove] settles on an empty square such that: if the computer,
    to move, can force a win, it can still force it after this move; if
    the computer can keep the player from winning, which some boards in
    progress do not allow, it still can after this move, so the player
    cannot force a win; and on every board the game loop reaches from the
    initial state with the computer to move, the move guarantees at least
    a draw whatever the player plays afterwards. *)
Theorem computerMove_optimal (b : Board) :
  checkWinner b = None →
  ∃ m sc,
    bestMove b = Normal (sc, Some m)
    ∧ b !! m = Some None
    ∧ (Forces MarkO computerWins MarkO b →
       Forces MarkO computerWins MarkX (<[m := Some MarkO]> b))
    ∧ (Forces MarkO computerSafe MarkO b →
       Forces MarkO computerSafe MarkX (<[m := Some MarkO]> b)
       ∧ ¬ Forces MarkX playerWins MarkX (<[m := Some MarkO]> b))
    ∧ (∀ s, reachable s → aiTurn s = true → board s = b →
            Forces MarkO computerSafe MarkX (<[m := Some MarkO]> b)).
Proof.
  intros Hw. destruct (bestMove_spec b) as (m & Hbest & Hm & _).
  { by apply checkWinner_None_null. }
  assert (Forces MarkO computerSafe MarkO b →
          Forces MarkO computerSafe MarkX (<[m := Some MarkO]> b)) as Hsafe.
  { intros HF.
    apply Forces_mono with (atLeast 0); [intros r; apply computerSafe_atLeast|].
    apply bestMove_forces with (moveScore b m); [done..|].
    revert HF. apply Forces_mono. intros r. apply computerSafe_atLeast. }
  exists m, (moveScore b m). split_and!; [done..| | |].
  - intros HF.
    apply Forces_mono with (atLeast 1); [intros r; apply computerWins_atLeast|].
    apply bestMove_forces with (moveScore b m); [done..|].
    revert HF. apply Forces_mono. intros r. apply computerWins_atLeast.
  - intros HF. split; [by apply Hsafe|]. by apply safe_not_playerWins, Hsafe.
  - intros s Hs Hai <-. apply Hsafe.
    destruct (reachable_safeInvariant s Hs) as [?|HF]; [done|].
    unfold aiTurn in Hai.
    repeat (apply andb_prop in Hai as [Hai ?]). apply negb_true_iff in Hai.
    by rewrite Hai in HF.
Qed.

Lemma computerMove_optimal_witness :
  ∃ m sc,
    bestMove (board centreClicked) = Normal (sc, Some m)
    ∧ board centreClicked !! m = Some None
    ∧ (Forces MarkO computerWins MarkO (board centreClicked) →
       Forces MarkO computerWins MarkX (<[m := Some MarkO]> (board centreClicked)))
    ∧ (Forces MarkO computerSafe MarkO (board centreClicked) →
       Forces MarkO computerSafe MarkX (<[m := Some MarkO]> (board centreClicked))
       ∧ ¬ Forces MarkX playerWins MarkX (<[m := Some MarkO]> (board centreClicked)))
    ∧ (∀ s, reachable s → aiTurn s = true → board s = board centreClicked →
            Forces MarkO computerSafe MarkX
              (<[m := Some MarkO]> (board centreClicked))).
Proof. apply (computerMove_optimal (board centreClicked)). reflexivity. Defined.

(** * Further properties of the code *)

(** ** emptySquares *)

(** X1: The list [computerMove] builds with [map] and [filter] holds exactly
    the indices of the [null] cells, each once, in strictly ascending
    order. *)
Theorem emptySquares_indices (b : Board) :
  (∀ i, i ∈ emptySquares b ↔ b !! i = Some None)
  ∧ StronglySorted lt (emptySquares b)
  ∧ NoDup (emptySquares b).
Proof.
  split_and!.
  - apply elem_of_emptySquares.
  - apply emptySquares_sorted.
  - rewrite emptySquares_filter. apply NoDup_filter, NoDup_seq.
Qed.

(** ** The score of minimax *)

(** The score does not depend on the bound on the depth, once the bound
    exceeds the number of [null] cells. *)
Lemma value_fuel_irrelevant fuel fuel' (b : Board) isMaximizing :
  (countNull b < fuel)%nat → (countNull b < fuel')%nat →
  value fuel b isMaximizing = value fuel' b isMaximizing.
Proof.
  intros Hf Hf'.
  destruct (value_range fuel b isMaximizing Hf) as (z & Hz & _).
  destruct (value_range fuel' b isMaximizing Hf') as (z' & Hz' & _).
  pose proof (value_forces fuel b isMaximizing z Hf) as H1.
  pose proof (value_forces fuel' b isMaximizing z Hf') as H1'.
  pose proof (value_forces fuel b isMaximizing z' Hf) as H2.
  pose proof (value_forces fuel' b isMaximizing z' Hf') as H2'.
  rewrite Hz in *. rewrite Hz' in *. simpl in *. f_equal.
  assert (z ≤ z') by (apply H1', H1; lia).
  assert (z' ≤ z) by (apply H2, H2'; lia).
  lia.
Qed.

(** X2: [minimax] never returns one of the infinities it starts its loop
    with: on every board and for every flag its score is -1, 0 or 1. *)
Theorem minimax_score_range (b : Board) (isMaximizing : bool) :
  ∃ z, minimax b isMaximizing = Normal (Num z, b) ∧ (z = -1 ∨ z = 0 ∨ z = 1).
Proof.
  destruct (value_range (S (length b)) b isMaximizing) as (z & Hz & Hr).
  { pose proof (countNull_le_length b). lia. }
  exists z. rewrite minimax_value, Hz. split; [done|lia].
Qed.

(** X3: What the score of [minimax] means. With the side named by the flag
    to move, the score is at least [t] exactly when the computer can force
    a result worth at least [t] (a win of ["O"] counting 1, a tie 0, a win
    of ["X"] -1), whatever the player plays. *)
Theorem minimax_score_forces (b : Board) (isMaximizing : bool) (t : Z) :
  ∃ sc, minimax b isMaximizing = Normal (sc, b)
        ∧ (score_le (Num t) sc
           ↔ Forces MarkO (atLeast t) (player isMaximizing) b).
Proof.
  exists (value (S (length b)) b isMaximizing). split; [apply minimax_value|].
  apply value_forces. pose proof (countNull_le_length b). lia.
Qed.

(** The results worth at most [t]. *)
Definition atMost (t : Z) (r : result) : Prop := resultScore r ≤ t.

Lemma fold_max_ge t (v : nat → score) (l : list nat) acc :
  score_le (foldl (λ bestScore i, combine true (v i) bestScore) acc l) (Num t)
  ↔ score_le acc (Num t) ∧ ∀ i, i ∈ l → score_le (v i) (Num t).
Proof.
  revert acc. induction l as [|j l IH]; intros acc; cbn [foldl].
  - split; [|tauto]. intros H. split; [done|]. intros i Hi. by apply elem_of_nil in Hi.
  - rewrite IH. unfold combine at 1.
    assert (score_le (score_max (v j) acc) (Num t)
            ↔ score_le (v j) (Num t) ∧ score_le acc (Num t)) as ->.
    { destruct (v j), acc; simpl; try tauto. lia. }
    split.
    + intros [[Hj Hacc] Hl]. split; [done|]. intros i Hi.
      apply elem_of_cons in Hi as [->|Hi]; [done|by apply Hl].
    + intros [Hacc Hl]. repeat split; [apply Hl; by left|done|].
      intros i Hi. apply Hl. by right.
Qed.

Lemma fold_min_ge t (v : nat → score) (l : list nat) acc :
  score_le (foldl (λ bestScore i, combine false (v i) bestScore) acc l) (Num t)
  ↔ score_le acc (Num t) ∨ ∃ i, i ∈ l ∧ score_le (v i) (Num t).
Proof.
  revert acc. induction l as [|j l IH]; intros acc; cbn [foldl].
  - split; [tauto|]. intros [H|(i & Hi & _)]; [done|]. by apply elem_of_nil in Hi.
  - rewrite IH. unfold combine at 1.
    assert (score_le (score_min (v j) acc) (Num t)
            ↔ score_le (v j) (Num t) ∨ score_le acc (Num t)) as ->.
    { destruct (v j), acc; simpl; try tauto. lia. }
    split.
    + intros [[H|H]|(i & Hi & H)]; [right; exists j|tauto|right; exists i].
      * split; [by left|done].
      * split; [by right|done].
    + intros [H|(i & Hi & H)]; [tauto|].
      apply elem_of_cons in Hi as [->|Hi]; [tauto|]. right. by exists i.
Qed.

(** The score is at most [t] exactly when the player can force a result
    worth at most [t]. *)
Lemma value_forces_player fuel :
  ∀ (b : Board) isMaximizing t,
  (countNull b < fuel)%nat →
  score_le (value fuel b isMaximizing) (Num t)
  ↔ Forces MarkX (atMost t) (player isMaximizing) b.
Proof.
  induction fuel as [|fuel IH]; intros b isMaximizing t Hfuel; [lia|].
  cbn [value]. destruct (checkWinner b) as [r|] eqn:Hw.
  - split.
    + intros Hle. by apply Forces_over with r.
    + intros HF. inversion HF; simplify_eq; done.
  - assert (∀ i m, b !! i = Some None →
                   (countNull (<[i := Some m]> b) < fuel)%nat) as Hlt.
    { intros i m Hi. pose proof (countNull_insert b i m Hi). lia. }
    destruct isMaximizing; cbn [player negb initialScore].
    + etrans; [apply (fold_max_ge t (λ i, value fuel (<[i := Some MarkO]> b) false))|].
      split.
      * intros [_ Hall]. apply (Forces_other MarkX); [done|].
        intros i Hi. apply (IH _ false); [by apply Hlt|].
        apply Hall. by apply elem_of_emptySquares.
      * intros HF. inversion HF as [? ? r Hr| |? _ Hall]; simplify_eq.
        split; [done|]. intros i Hi%elem_of_emptySquares.
        apply (IH _ false t); [by apply Hlt|by apply Hall].
    + etrans; [apply (fold_min_ge t (λ i, value fuel (<[i := Some MarkX]> b) true))|].
      split.
      * intros [[]|(i & Hi & Hle)]. apply elem_of_emptySquares in Hi.
        apply Forces_own with i; [done..|].
        apply (IH _ true); [by apply Hlt|done].
      * intros HF. inversion HF as [? ? r Hr|? i _ Hi HF'|]; simplify_eq.
        right. exists i. split; [by apply elem_of_emptySquares|].
        apply (IH _ true) in HF'; [done|by apply Hlt].
Qed.

(** X4: The game is determined, and [minimax] tells how: its score is -1
    exactly when the player can force a win, 1 exactly when the computer
    can, and 0 exactly when each side can keep the other from winning. *)
Theorem minimax_determined (b : Board) (isMaximizing : bool) :
  ∃ z, minimax b isMaximizing = Normal (Num z, b)
       ∧ (z = -1 ↔ Forces MarkX playerWins (player isMaximizing) b)
       ∧ (z = 1 ↔ Forces MarkO computerWins (player isMaximizing) b)
       ∧ (z = 0 ↔ Forces MarkO computerSafe (player isMaximizing) b
                  ∧ Forces MarkX (λ r, r ≠ Won MarkO) (player isMaximizing) b).
Proof.
  assert (countNull b < S (length b))%nat as Hfuel.
  { pose proof (countNull_le_length b). lia. }
  destruct (value_range _ b isMaximizing Hfuel) as (z & Hz & Hr).
  exists z. rewrite minimax_value, Hz. split; [done|].
  pose proof (value_forces _ b isMaximizing 1 Hfuel) as Hwin.
  pose proof (value_forces _ b isMaximizing 0 Hfuel) as Hsafe.
  pose proof (value_forces_player _ b isMaximizing (-1) Hfuel) as Hlose.
  pose proof (value_forces_player _ b isMaximizing 0 Hfuel) as Hhold.
  rewrite Hz in *. simpl in *.
  assert (∀ turn, Forces MarkX playerWins turn b ↔ Forces MarkX (atMost (-1)) turn b)
    as HX.
  { intros turn. split; apply Forces_mono; intros [[]|]; unfold playerWins, atMost;
      simpl; (done || lia). }
  assert (∀ turn, Forces MarkX (λ r, r ≠ Won MarkO) turn b
                  ↔ Forces MarkX (atMost 0) turn b) as HX0.
  { intros turn. split; apply Forces_mono; intros [[]|]; unfold atMost;
      simpl; (done || lia). }
  assert (∀ turn, Forces MarkO computerWins turn b ↔ Forces MarkO (atLeast 1) turn b)
    as HO.
  { intros turn. split; apply Forces_mono; intros r; apply computerWins_atLeast. }
  assert (∀ turn, Forces MarkO computerSafe turn b ↔ Forces MarkO (atLeast 0) turn b)
    as HO0.
  { intros turn. split; apply Forces_mono; intros r; apply computerSafe_atLeast. }
  rewrite HX, HX0, HO, HO0, <- Hwin, <- Hsafe, <- Hlose, <- Hhold. lia.
Qed.

(** ** The move computerMove makes *)

Lemma score_eq_by_thresholds a b :
  inRange a → inRange b →
  (∀ t, score_le (Num t) a ↔ score_le (Num t) b) → a = b.
Proof.
  intros (x & -> & _) (y & -> & _) Hiff. simpl in Hiff. f_equal.
  pose proof (proj1 (Hiff x)). pose proof (proj2 (Hiff y)). lia.
Qed.

(** X5: On a board in progress the best score [computerMove] ends its loop
    with is the score [minimax] gives the board itself with the computer
    to move: the root loop is one more level of the same search. *)
Theorem bestMove_score_minimax (b : Board) :
  checkWinner b = None →
  ∃ m sc, bestMove b = Normal (sc, Some m)
          ∧ minimax b true = Normal (sc, b).
Proof.
  intros Hw. destruct (bestMove_spec b) as (m & Hbest & Hm & Hmax).
  { by apply checkWinner_None_null. }
  exists m, (moveScore b m). split; [done|]. rewrite minimax_value. f_equal. f_equal.
  assert (countNull b < S (length b))%nat as Hfuel.
  { pose proof (countNull_le_length b). lia. }
  apply score_eq_by_thresholds.
  - by apply value_range.
  - by apply moveScore_inRange.
  - intros t. rewrite (value_forces _ b true t Hfuel). split.
    + intros HF. inversion HF as [? ? r Hr|? i _ Hi HF'|]; simplify_eq.
      apply moveScore_forces in HF'; [|done].
      apply score_le_trans with (moveScore b i); [done|]. by apply Hmax.
    + intros Hle. apply Forces_own with m; [done..|]. by apply moveScore_forces.
Qed.

Lemma bestMove_score_minimax_witness :
  ∃ m sc, bestMove scenario3 = Normal (sc, Some m)
          ∧ minimax scenario3 true = Normal (sc, scenario3).
Proof. apply (bestMove_score_minimax scenario3). reflexivity. Defined.

(** X6: [computerMove] has no look at the outcome of the board: it finds a
    move exactly when some cell is [null]. It then writes ["O"] into one
    [null] cell and leaves every other cell as it is; without a [null]
    cell it leaves the board alone. In both cases it gives the turn to the
    player and touches nothing else. *)
Theorem computerMove_writes_one_null (s : state) :
  ∃ s', computerMove s = Normal s'
        ∧ s' = setIsPlayerTurn true (setBoard (board s') s)
        ∧ (((∀ i, board s !! i ≠ Some None) ∧ board s' = board s)
           ∨ (∃ m, board s !! m = Some None
                   ∧ board s' = <[m := Some MarkO]> (board s))).
Proof.
  destruct (computerMove_Normal s) as (sc & move & Hbest & ->).
  eexists. split; [done|].
  destruct (emptySquares (board s)) as [|k l] eqn:Hempty.
  - unfold bestMove in Hbest. rewrite Hempty in Hbest. injection Hbest as <- <-.
    split; [by destruct s|]. left. split; [|done].
    intros i Hi%elem_of_emptySquares. rewrite Hempty in Hi.
    by apply elem_of_nil in Hi.
  - destruct (bestMove_spec (board s)) as (m & Hm & Hnull & _).
    { exists k. apply elem_of_emptySquares. rewrite Hempty. by left. }
    rewrite Hm in Hbest. injection Hbest as <- <-.
    split; [done|]. right. by exists m.
Qed.

(** ** checkWinner under further moves *)

(** X7: A mark written into a [null] cell takes no line away: a mark that
    holds a line still holds it, and a board on which [checkWinner]
    reports a result still has one. *)
Theorem checkWinner_stays_finished (b : Board) (i : nat) (m : mark) :
  b !! i = Some None →
  (∀ m', wonBy b m' → wonBy (<[i := Some m]> b) m')
  ∧ (checkWinner b ≠ None → checkWinner (<[i := Some m]> b) ≠ None).
Proof.
  intros Hi. split; [|intros Hb; by apply checkWinner_insert_finished].
  intros m' ([[j k] l] & Hin & Hj & Hk & Hl). exists (j, k, l). split; [done|].
  repeat split; (rewrite list_lookup_insert_ne; [assumption|]);
    intros ->; rewrite Hi in *; discriminate.
Qed.

Lemma checkWinner_stays_finished_witness :
  (∀ m', wonBy twoLines m' → wonBy (<[6%nat := Some MarkO]> twoLines) m')
  ∧ (checkWinner twoLines ≠ None
     → checkWinner (<[6%nat := Some MarkO]> twoLines) ≠ None).
Proof. apply (checkWinner_stays_finished twoLines 6 MarkO). reflexivity. Defined.

(** ** The transitions of the component *)

(** X8: What a transition can do to the board: reset it to nine [null]
    cells (the start button), leave it as it is, or write the mark of the
    side whose turn the flag [isPlayerTurn] says it is into one [null]
    cell, the turn passing to the other side. No mark is ever moved,
    erased or overwritten within a round. *)
Theorem step_board (s s' : state) :
  step s s' →
  board s' = emptyBoard
  ∨ board s' = board s
  ∨ ∃ i, board s !! i = Some None
         ∧ board s' = <[i := Some (if isPlayerTurn s then MarkX else MarkO)]> (board s)
         ∧ isPlayerTurn s' = negb (isPlayerTurn s).
Proof.
  intros [index s1 s2 Hlt Hclick|s1 s2 Hai Hmove|s1 w _ _ _|s1 _ _|s1 _ _ _|s1].
  - unfold handleClick in Hclick.
    destruct (clickRefused index s1) eqn:Hrefused; injection Hclick as <-; [tauto|].
    unfold clickRefused in Hrefused.
    repeat (apply orb_false_elim in Hrefused as [Hrefused ?]).
    apply lookup_lt_is_Some_2 in Hlt as [[m|] Hc]; [by rewrite Hc in Hrefused|].
    right. right. exists index. destruct (isPlayerTurn s1); done.
  - unfold aiTurn in Hai.
    repeat (apply andb_prop in Hai as [Hai ?]). apply negb_true_iff in Hai.
    destruct (computerMove_Normal s1) as (sc & move & Hbest & Heq).
    rewrite Heq in Hmove. injection Hmove as <-.
    destruct move as [m|]; [|tauto]. right. right. exists m. rewrite Hai.
    split; [|done].
    destruct (emptySquares (board s1)) as [|k l] eqn:Hempty.
    + unfold bestMove in Hbest. by rewrite Hempty in Hbest.
    + destruct (bestMove_spec (board s1)) as (m' & Hm' & Hnull & _).
      * exists k. apply elem_of_emptySquares. rewrite Hempty. by left.
      * rewrite Hm' in Hbest. by injection Hbest as _ <-.
  - right. left. by destruct w as [[]|].
  - tauto.
  - tauto.
  - by left.
Qed.

Lemma step_board_witness :
  board centreClicked = emptyBoard
  ∨ board centreClicked = board roundStarted
  ∨ ∃ i, board roundStarted !! i = Some None
         ∧ board centreClicked
           = <[i := Some (if isPlayerTurn roundStarted then MarkX else MarkO)]>
               (board roundStarted)
         ∧ isPlayerTurn centreClicked = negb (isPlayerTurn roundStarted).
Proof.
  apply (step_board roundStarted centreClicked).
  apply (step_click 4); [simpl; lia|reflexivity].
Defined.

(** The round before it is ready: no mark is on the board, the turn is
    the player's and no winner is recorded. *)
Definition lifecycleInvariant (s : state) : Prop :=
  length (board s) = 9%nat
  ∧ 0 ≤ countdown s ≤ 3
  ∧ (0 < countdown s ∨ gameStarted s = false ∨ roundReady s = false →
     board s = emptyBoard ∧ isPlayerTurn s = true ∧ winner s = None).

Lemma step_lifecycleInvariant (s s' : state) :
  step s s' → lifecycleInvariant s → lifecycleInvariant s'.
Proof.
  unfold lifecycleInvariant.
  intros [index s1 s2 Hlt Hclick|s1 s2 Hai Hmove|s1 w Hai Hw Hnone|s1 Hc Hg
         |s1 Hc Hg Hr|s1] (Hlen & [Hlo Hhi] & Hidle).
  - unfold handleClick in Hclick.
    destruct (clickRefused index s1) eqn:Hrefused; injection Hclick as <-; [done|].
    unfold clickRefused in Hrefused.
    repeat (apply orb_false_elim in Hrefused as [Hrefused ?]).
    simpl. rewrite length_insert. split_and!; [done..|].
    intros [?|[?|?]]; [|destruct (gameStarted s1); done|destruct (roundReady s1); done].
    assert ((0 <? countdown s1) = true) by (apply Z.ltb_lt; lia). congruence.
  - unfold aiTurn in Hai.
    repeat (apply andb_prop in Hai as [Hai ?]). apply negb_true_iff in Hai.
    destruct (computerMove_Normal s1) as (sc & move & Hbest & Heq).
    rewrite Heq in Hmove. injection Hmove as <-.
    assert (¬ (0 < countdown s1 ∨ gameStarted s1 = false ∨ roundReady s1 = false))
      as Hrun.
    { intros (_ & Hturn & _)%Hidle. congruence. }
    destruct move as [m|]; simpl; rewrite ?length_insert;
      (split_and!; [done..|intros Hno; by destruct Hrun]).
  - assert (¬ (0 < countdown s1 ∨ gameStarted s1 = false ∨ roundReady s1 = false))
      as Hrun.
    { intros (Hb & _)%Hidle. by rewrite Hb in Hw. }
    destruct w as [[]|]; simpl; (split_and!; [done..|]);
      intros [?|[?|?]]; (done || (destruct Hrun; tauto)).
  - simpl. split_and!; [done|lia|lia|]. intros _. apply Hidle. by left.
  - simpl. split_and!; [done..|]. intros [?|[?|?]]; [lia|congruence|done].
  - simpl. split_and!; done.
Qed.

(** X9: The board always has nine cells, the countdown stays between 0 and
    3, and as long as the countdown runs or the round is not started or
    not ready, no mark is on the board, the turn is the player's and no
    winner is recorded. *)
Theorem reachable_lifecycle (s : state) :
  reachable s →
  length (board s) = 9%nat
  ∧ 0 ≤ countdown s ≤ 3
  ∧ (0 < countdown s ∨ gameStarted s = false ∨ roundReady s = false →
     board s = emptyBoard ∧ isPlayerTurn s = true ∧ winner s = None).
Proof.
  induction 1 as [|s s' _ IH Hstep].
  - split_and!; [done|done|done|]. intros _. split_and!; done.
  - by apply (step_lifecycleInvariant s s').
Qed.

Lemma reachable_lifecycle_witness :
  length (board centreAnswered) = 9%nat
  ∧ 0 ≤ countdown centreAnswered ≤ 3
  ∧ (0 < countdown centreAnswered ∨ gameStarted centreAnswered = false
     ∨ roundReady centreAnswered = false →
     board centreAnswered = emptyBoard ∧ isPlayerTurn centreAnswered = true
     ∧ winner centreAnswered = None).
Proof. apply (reachable_lifecycle centreAnswered), reachable_centreAnswered. Defined.

(** The winner the component shows is never stale: whenever [winner] is
    set, it is what [checkWinner] reports on the current board, and the
    round is marked ready. *)
Definition winnerInvariant (s : state) : Prop :=
  ∀ w, winner s = Some w → checkWinner (board s) = Some w ∧ roundReady s = true.

Lemma step_winnerInvariant (s s' : state) :
  step s s' → winnerInvariant s → winnerInvariant s'.
Proof.
  unfold winnerInvariant.
  intros [index s1 s2 Hlt Hclick|s1 s2 Hai Hmove|s1 w Hai Hw Hnone|s1 Hc Hg
         |s1 Hc Hg Hr|s1] Hinv w'.
  - unfold handleClick in Hclick.
    destruct (clickRefused index s1) eqn:Hrefused; injection Hclick as <-;
      [apply Hinv|].
    unfold clickRefused in Hrefused.
    repeat (apply orb_false_elim in Hrefused as [Hrefused ?]).
    simpl. intros Hw'. destruct (winner s1); [|done].
    by rewrite bool_decide_eq_true_2 in * by eauto.
  - unfold aiTurn in Hai.
    repeat (apply andb_prop in Hai as [Hai ?]).
    destruct (computerMove_Normal s1) as (sc & move & Hbest & Heq).
    rewrite Heq in Hmove. injection Hmove as <-.
    assert (winner s1 = None) as Hnone.
    { destruct (winner s1); [|done].
      by rewrite bool_decide_eq_true_2 in * by eauto. }
    destruct move; simpl; by rewrite Hnone.
  - destruct w as [[]|]; simpl; by intros [= <-].
  - simpl. apply Hinv.
  - simpl. intros Hw'. by destruct (Hinv w' Hw').
  - done.
Qed.

(** X10: In every state the component can reach, a recorded winner is the
    result [checkWinner] reports on the current board, and the round is
    marked ready. *)
Theorem reachable_winner_current (s : state) (w : result) :
  reachable s →
  winner s = Some w →
  checkWinner (board s) = Some w ∧ roundReady s = true.
Proof.
  intros Hs. revert w. change (winnerInvariant s).
  induction Hs as [|s s' _ IH Hstep]; [done|].
  by apply (step_winnerInvariant s s').
Qed.

(** A click that is accepted once the countdown is over, followed by the
    answer of the computer. *)
Lemma reachable_click_answer (s s1 s2 : state) (index : nat) :
  reachable s →
  (index < length (board s))%nat →
  handleClick index s = Normal s1 →
  aiTurn s1 = true →
  computerMove s1 = Normal s2 →
  reachable s2.
Proof.
  intros Hs Hlt Hclick Hai Hmove.
  apply reachable_step with s1; [|by apply step_computer].
  apply reachable_step with s; [done|by apply step_click with index].
Qed.

(** A round the player loses: after the centre, the player takes the
    cells 1, 2 and 3, and the computer completes the bottom row. *)
Definition lostRound : state :=
  playing [Some MarkO; Some MarkX; Some MarkX;
           Some MarkX; Some MarkX; None;
           Some MarkO; Some MarkO; Some MarkO] true.

Definition computerWon : state := updateWinner (Won MarkO) lostRound.

Lemma reachable_lostRound : reachable lostRound.
Proof.
  pose (sA := playing [Some MarkO; Some MarkX; None; None; Some MarkX; None;
                       None; Some MarkO; None] true).
  pose (sB := playing [Some MarkO; Some MarkX; Some MarkX; None; Some MarkX; None;
                       Some MarkO; Some MarkO; None] true).
  assert (reachable sA) as HA.
  { eapply (reachable_click_answer centreAnswered _ sA 1);
      [apply reachable_centreAnswered|simpl; lia|reflexivity|reflexivity|].
    vm_compute. reflexivity. }
  assert (reachable sB) as HB.
  { eapply (reachable_click_answer sA _ sB 2);
      [exact HA|simpl; lia|reflexivity|reflexivity|].
    vm_compute. reflexivity. }
  eapply (reachable_click_answer sB _ lostRound 3);
    [exact HB|simpl; lia|reflexivity|reflexivity|].
  vm_compute. reflexivity.
Qed.

Lemma reachable_computerWon : reachable computerWon.
Proof.
  apply reachable_step with lostRound; [apply reachable_lostRound|].
  by apply (step_winner lostRound (Won MarkO)).
Qed.

Lemma reachable_winner_current_witness :
  checkWinner (board computerWon) = Some (Won MarkO)
  ∧ roundReady computerWon = true.
Proof.
  apply (reachable_winner_current computerWon (Won MarkO));
    [apply reachable_computerWon|reflexivity].
Defined.

(** X11: Once a winner is recorded the round is over: a transition either
    starts a new game or leaves the board, the turn and the winner as
    they are. *)
Theorem step_after_winner (s s' : state) :
  is_Some (winner s) →
  step s s' →
  s' = startNewGame s
  ∨ (board s' = board s ∧ isPlayerTurn s' = isPlayerTurn s ∧ winner s' = winner s).
Proof.
  intros Hw Hstep. revert Hw.
  destruct Hstep as [index s1 s2 Hlt Hclick|s1 s2 Hai Hmove|s1 w Hai Hcw Hnone
                    |s1 Hc Hg|s1 Hc Hg Hr|s1]; intros Hw.
  - unfold handleClick, clickRefused in Hclick.
    rewrite (bool_decide_eq_true_2 _ Hw), orb_true_r in Hclick. simpl in Hclick.
    injection Hclick as <-. tauto.
  - unfold aiTurn in Hai. rewrite (bool_decide_eq_true_2 _ Hw) in Hai.
    by rewrite andb_false_r in Hai.
  - rewrite Hnone in Hw. by destruct Hw.
  - tauto.
  - tauto.
  - by left.
Qed.

Lemma step_after_winner_witness :
  computerWon = startNewGame computerWon
  ∨ (board computerWon = board computerWon
     ∧ isPlayerTurn computerWon = isPlayerTurn computerWon
     ∧ winner computerWon = winner computerWon).
Proof.
  apply (step_after_winner computerWon computerWon).
  - simpl. eauto.
  - apply (step_click 5); [simpl; lia|reflexivity].
Defined.

(** X12: The computer cannot be beaten: in a state the component can reach,
    a click on a board in progress never completes a line of ["X"] that
    [checkWinner] reports. *)
Theorem click_never_wins (s s' : state) (index : nat) :
  reachable s →
  checkWinner (board s) = None →
  (index < length (board s))%nat →
  handleClick index s = Normal s' →
  checkWinner (board s') ≠ Some (Won MarkX).
Proof.
  intros Hs Hw Hlt Hclick.
  assert (reachable s') as Hs'.
  { apply reachable_step with s; [done|by apply step_click with index]. }
  unfold handleClick in Hclick.
  destruct (clickRefused index s) eqn:Hrefused; injection Hclick as <-;
    [by rewrite Hw|].
  destruct (reachable_safeInvariant _ Hs') as [Hfin|HF].
  - destruct (reachable_safeInvariant _ Hs) as [?|HF]; [done|].
    unfold clickRefused in Hrefused.
    repeat (apply orb_false_elim in Hrefused as [Hrefused ?]).
    apply lookup_lt_is_Some_2 in Hlt as [[m|] Hc]; [by rewrite Hc in Hrefused|].
    destruct (isPlayerTurn s); [|done].
    inversion HF as [| |? _ Hall]; simplify_eq.
    specialize (Hall index Hc). simpl in *.
    intros Hx. inversion Hall; simplify_eq; done.
  - simpl in *. intros Hx. inversion HF; simplify_eq; done.
Qed.

Lemma click_never_wins_witness :
  checkWinner (<[8%nat := Some MarkX]> (board centreAnswered)) ≠ Some (Won MarkX).
Proof.
  apply (click_never_wins centreAnswered
           (setIsPlayerTurn false
              (setBoard (<[8%nat := Some MarkX]> (board centreAnswered))
                 centreAnswered)) 8);
    [apply reachable_centreAnswered|reflexivity|simpl; lia|reflexivity].
Defined.

(** X13: In the game loop the flag and the board never disagree: whenever the
    effect lets the computer move, the player has exactly one more mark
    on the board, so each call [minimax(newBoard, false)] of
    [computerMove] starts with the flag naming the side to move by the
    counts, and returns the score of the flag-free search of the
    specification. *)
Theorem reachable_flag_matches_turn (s : state) (i : nat) :
  reachable s →
  aiTurn s = true →
  board s !! i = Some None →
  countMark MarkX (board s) = S (countMark MarkO (board s))
  ∧ flagMatchesTurn (<[i := Some MarkO]> (board s)) false
  ∧ ∃ sc, minimax (<[i := Some MarkO]> (board s)) false
          = Normal (sc, <[i := Some MarkO]> (board s))
          ∧ scoreDerived (<[i := Some MarkO]> (board s)) MarkO = Normal sc.
Proof.
  intros Hinv%reachable_turnInvariant Hai Hi.
  unfold aiTurn in Hai.
  repeat (apply andb_prop in Hai as [Hai ?]). apply negb_true_iff in Hai.
  unfold turnInvariant in Hinv. rewrite Hai in Hinv.
  assert (flagMatchesTurn (<[i := Some MarkO]> (board s)) false) as Hflag.
  { unfold flagMatchesTurn. rewrite !countMark_insert by done. simpl. lia. }
  split_and!; [done..|].
  eexists. split; [apply minimax_value|].
  apply scoreDerived_fuel_value; [done|].
  pose proof (countNull_le_length (<[i := Some MarkO]> (board s))). lia.
Qed.

Lemma reachable_flag_matches_turn_witness :
  countMark MarkX (board centreClicked) = S (countMark MarkO (board centreClicked))
  ∧ flagMatchesTurn (<[0%nat := Some MarkO]> (board centreClicked)) false
  ∧ ∃ sc, minimax (<[0%nat := Some MarkO]> (board centreClicked)) false
          = Normal (sc, <[0%nat := Some MarkO]> (board centreClicked))
          ∧ scoreDerived (<[0%nat := Some MarkO]> (board centreClicked)) MarkO
            = Normal sc.
Proof.
  apply (reachable_flag_matches_turn centreClicked 0);
    [apply reachable_centreClicked|reflexivity|reflexivity].
Defined.

(** X14: The player cannot move twice in a row: after a click that changed
    the state, every further click is refused until the turn has come
    back. *)
Theorem handleClick_twice (s s' : state) (index index' : nat) :
  handleClick index s = Normal s' →
  s' ≠ s →
  isPlayerTurn s' = false ∧ handleClick index' s' = Normal s'.
Proof.
  unfold handleClick at 1.
  destruct (clickRefused index s); intros [= <-] Hne; [done|].
  split; [done|]. unfold handleClick, clickRefused. simpl.
  by rewrite !orb_true_r.
Qed.

Lemma handleClick_twice_witness :
  isPlayerTurn centreClicked = false
  ∧ handleClick 5 centreClicked = Normal centreClicked.
Proof.
  apply (handleClick_twice roundStarted centreClicked 4 5); [reflexivity|].
  intros Heq. apply (f_equal isPlayerTurn) in Heq. discriminate.
Defined.

(** The sum of the three tallies. *)
Definition tally (s : state) : Z := playerScore s + aiScore s + draws s.

(** A tally in the range in which a JS number counts exactly. *)
Definition exactCount (x : Z) : Prop := 0 ≤ x < 2 ^ 53.

(** X15: As long as the three tallies are counts below 2^53, they change
    only when the effect records a result, and then exactly one of them
    grows by one, the one of the result; every other transition, the start
    of a new game included, keeps all three. *)
Theorem step_tally (s s' : state) :
  exactCount (playerScore s) →
  exactCount (aiScore s) →
  exactCount (draws s) →
  step s s' →
  (playerScore s' = playerScore s ∧ aiScore s' = aiScore s ∧ draws s' = draws s)
  ∨ (winner s = None
     ∧ winner s' = checkWinner (board s)
     ∧ tally s' = tally s + 1
     ∧ playerScore s' = playerScore s + (if decide (winner s' = Some (Won MarkX)) then 1 else 0)
     ∧ aiScore s' = aiScore s + (if decide (winner s' = Some (Won MarkO)) then 1 else 0)
     ∧ draws s' = draws s + (if decide (winner s' = Some Tie) then 1 else 0)).
Proof.
  intros _ _ _.
  intros [index s1 s2 Hlt Hclick|s1 s2 Hai Hmove|s1 w Hai Hw Hnone|s1 Hc Hg
         |s1 Hc Hg Hr|s1].
  - left. unfold handleClick in Hclick.
    by destruct (clickRefused index s1); injection Hclick as <-.
  - left. destruct (computerMove_Normal s1) as (sc & move & _ & Heq).
    rewrite Heq in Hmove. injection Hmove as <-. by destruct move.
  - right. unfold tally. rewrite Hw.
    destruct w as [[]|]; simpl; split_and!; (done || lia).
  - by left.
  - by left.
  - by left.
Qed.

Lemma step_tally_witness :
  (playerScore computerWon = playerScore lostRound
   ∧ aiScore computerWon = aiScore lostRound
   ∧ draws computerWon = draws lostRound)
  ∨ (winner lostRound = None
     ∧ winner computerWon = checkWinner (board lostRound)
     ∧ tally computerWon = tally lostRound + 1
     ∧ playerScore computerWon
       = playerScore lostRound
         + (if decide (winner computerWon = Some (Won MarkX)) then 1 else 0)
     ∧ aiScore computerWon
       = aiScore lostRound
         + (if decide (winner computerWon = Some (Won MarkO)) then 1 else 0)
     ∧ draws computerWon
       = draws lostRound
         + (if decide (winner computerWon = Some Tie) then 1 else 0)).
Proof.
  apply (step_tally lostRound computerWon).
  - split; [simpl; lia|reflexivity].
  - split; [simpl; lia|reflexivity].
  - split; [simpl; lia|reflexivity].
  - by apply (step_winner lostRound (Won MarkO)).
Defined.

(** X16: The game cannot get stuck on the computer's turn: in a state the
    component can reach, a click that is accepted leaves a state in which
    the effect lets the computer move, and [computerMove] then returns
    with the turn given back to the player. *)
Theorem click_is_answered (s s' : state) (index : nat) :
  reachable s →
  handleClick index s = Normal s' →
  s' ≠ s →
  aiTurn s' = true
  ∧ ∃ s'', computerMove s' = Normal s'' ∧ isPlayerTurn s'' = true.
Proof.
  intros Hs Hclick Hne.
  assert (0 ≤ countdown s) as Hcount.
  { clear Hclick Hne. induction Hs as [|s s2 _ IH Hstep]; [done|].
    destruct Hstep as [index' s1 s2 Hlt Hclick|s1 s2 Hai Hmove|s1 w Hai Hw Hnone
                      |s1 Hc Hg|s1 Hc Hg Hr|s1].
    - unfold handleClick in Hclick.
      by destruct (clickRefused index' s1); injection Hclick as <-.
    - destruct (computerMove_Normal s1) as (sc & move & _ & Heq).
      rewrite Heq in Hmove. injection Hmove as <-. by destruct move.
    - by destruct w as [[]|].
    - simpl. lia.
    - done.
    - done. }
  unfold handleClick in Hclick.
  destruct (clickRefused index s) eqn:Hrefused; injection Hclick as <-; [done|].
  unfold clickRefused in Hrefused.
  apply orb_false_elim in Hrefused as [Hrefused Hturn].
  apply orb_false_elim in Hrefused as [Hrefused Hready].
  apply orb_false_elim in Hrefused as [Hrefused Hstarted].
  apply orb_false_elim in Hrefused as [Hrefused Hdown].
  apply orb_false_elim in Hrefused as [_ Hwinner].
  split.
  - unfold aiTurn. simpl. rewrite Hwinner.
    assert (countdown s = 0) as -> by (apply Z.ltb_ge in Hdown; lia).
    by destruct (roundReady s).
  - destruct (computerMove_Normal
                (setIsPlayerTurn false
                   (setBoard (<[index := Some MarkX]> (board s)) s)))
      as (sc & move & _ & ->).
    eexists. split; [done|]. by destruct move.
Qed.

Lemma click_is_answered_witness :
  aiTurn centreClicked = true
  ∧ ∃ s'', computerMove centreClicked = Normal s'' ∧ isPlayerTurn s'' = true.
Proof.
  apply (click_is_answered roundStarted centreClicked 4);
    [apply reachable_roundStarted|reflexivity|].
  intros Heq. apply (f_equal isPlayerTurn) in Heq. discriminate.
Defined.
